(** * Closest pair of points in the plane (tp2_closest_pair.py)

    A shallow embedding of [dist], [brute_force], [closest_pair] and
    [_closest_pair_rec], and the properties of the divide-and-conquer
    algorithm: error behaviour, termination and recursion depth, the
    y-partition, the strip scan, and agreement with the exhaustive search.
    [Point.from_str] and [random_points], which feed [closest_pair] from the
    command line, are embedded over the builtins they call ([float], the
    random generator), taken as parameters.

    Numbers.  The program computes on Python floats.  The embedding is exact:
    coordinates are integers ([Z]; any finite family of floats is a family of
    dyadic rationals and scales to integers by a power of two, and every
    comparison the program makes is invariant under scaling), and a distance
    is kept as the integer under the square root, [Sqrt s] standing for the
    real number √s.  Comparisons of distances are comparisons of these
    radicands, which is what they are on the reals (section [Denotation] at
    the end).  Rounding is not modelled. *)

From stdpp Require Import gmap list sorting strings.
From Stdlib Require Import Reals Ascii.

(** * Definitions *)

(** ** Data model *)

#[local] Open Scope Z_scope.

(** [@dataclass(frozen=True) class Point]: a value, compared and hashed by its
    two coordinates. *)
Record Point := mkPoint { x : Z; y : Z }.

#[global] Instance Point_eq_dec : EqDecision Point.
Proof. solve_decision. Defined.

#[global] Instance Point_countable : Countable Point :=
  inj_countable' (λ p, (x p, y p)) (λ c, mkPoint c.1 c.2) (λ p, match p with mkPoint _ _ => eq_refl end).

#[global] Instance Point_inhabited : Inhabited Point := populate (mkPoint 0 0).

(** A distance: [Sqrt s] is the real √s, [PInf] is [float("inf")]. *)
Inductive Dist := Sqrt (s : Z) | PInf.

#[global] Instance Dist_eq_dec : EqDecision Dist.
Proof. solve_decision. Defined.

Module Dist.
(** [a < b] on distances with non-negative radicands. *)
Definition lt (a b : Dist) : Prop :=
  match a, b with
  | Sqrt s, Sqrt t => s < t
  | Sqrt _, PInf => True
  | PInf, _ => False
  end.

(** [a <= b]. *)
Definition le (a b : Dist) : Prop :=
  match a, b with
  | Sqrt s, Sqrt t => s ≤ t
  | _, PInf => True
  | PInf, Sqrt _ => False
  end.

(** [k < d] for a non-negative integer-valued number [k]: k < √s iff k² < s. *)
Definition zlt (k : Z) (d : Dist) : Prop :=
  match d with
  | Sqrt s => k * k < s
  | PInf => True
  end.

#[global] Instance lt_dec a b : Decision (lt a b).
Proof. destruct a, b; simpl; apply _. Defined.
#[global] Instance le_dec a b : Decision (le a b).
Proof. destruct a, b; simpl; apply _. Defined.
#[global] Instance zlt_dec k d : Decision (zlt k d).
Proof. destruct d; simpl; apply _. Defined.
End Dist.

(** [math.hypot(dx, dy)] *)
Definition hypot (dx dy : Z) : Dist := Sqrt (dx * dx + dy * dy).

(** [def dist(p, q)] *)
Definition dist (p q : Point) : Dist :=
  let dx := x p - x q in
  let dy := y p - y q in
  hypot dx dy.
#[global] Arguments dist : simpl never.

(** ** Errors *)

Inductive exn :=
  | ValueError   (* raise ValueError("Need at least two points.") *)
  | IndexError   (* a list index out of range *)
  | OutOfFuel.   (* the recursion budget of the embedding is used up *)

Inductive res (A : Type) := Ok (a : A) | Raise (e : exn).
Arguments Ok {A} a.
Arguments Raise {A} e.

#[global] Instance res_ret : MRet res := λ A a, Ok a.
#[global] Instance res_bind : MBind res := λ A B f m,
  match m with Ok a => f a | Raise e => Raise e end.

(** [l[i]] for [i >= 0] *)
Definition index {A} (l : list A) (i : nat) : res A :=
  match l !! i with Some a => Ok a | None => Raise IndexError end.

(** [l[-1]] *)
Definition index_last {A} (l : list A) : res A :=
  match last l with Some a => Ok a | None => Raise IndexError end.

(** [range(a, b)] *)
Definition range (a b : nat) : list nat := seq a (b - a).

(** ** The algorithm *)

Definition Result : Type := Dist * (Point * Point).

(** The body of both inner loops: [if d < best: best = d; pair = (l[i], l[j])], the pair being [pr]. *)
Definition improve (l : list Point) (i : nat) (acc : Result) (j : nat) : Result :=
  let '(best, pr) := acc in
  let d := dist (l !!! i) (l !!! j) in
  if decide (Dist.lt d best) then (d, (l !!! i, l !!! j)) else (best, pr).

(** [def brute_force(points)] *)
Definition brute_force (points : list Point) : res Result :=
  p0 ← index points 0;
  let best := PInf in
  let pr := (p0, p0) in
  let n := length points in
  Ok (foldl (λ acc i, foldl (improve points i) acc (range (i + 1) n))
        (best, pr) (range 0 n)).

(** The tuple comparisons behind [key=lambda p: (p.x, p.y)] and
    [key=lambda p: (p.y, p.x)]. *)
Definition le_xy (p q : Point) : Prop := x p < x q ∨ (x p = x q ∧ y p ≤ y q).
Definition le_yx (p q : Point) : Prop := y p < y q ∨ (y p = y q ∧ x p ≤ x q).

#[global] Instance le_xy_dec p q : Decision (le_xy p q).
Proof. unfold le_xy; apply _. Defined.
#[global] Instance le_yx_dec p q : Decision (le_yx p q).
Proof. unfold le_yx; apply _. Defined.

(** [sorted(l, key=...)]: a stable merge sort on the key order. *)
Definition sorted (le : relation Point) `{!∀ p q, Decision (le p q)}
  (l : list Point) : list Point := merge_sort le l.

(** The provisional best of step 5: [if dl <= dr: ... else: ...]. *)
Definition combine (l r : Result) : Result :=
  if decide (Dist.le l.1 r.1) then l else r.

(** [strip = [p for p in py if abs(p.x - midx) < d]] *)
Definition strip_of (py : list Point) (midx : Z) (d : Dist) : list Point :=
  filter (λ p, Dist.zlt (Z.abs (x p - midx)) d) py.

(** The scan of the strip:
    [for i in range(m): for j in range(i + 1, min(i + 8, m)): ...]. *)
Definition strip_scan (strip : list Point) (start : Result) : Result :=
  let m := length strip in
  foldl (λ acc i, foldl (improve strip i) acc (range (i + 1) (min (i + 8) m))%nat)
    start (range 0 m).

(** [def _closest_pair_rec(px, py)].  Python's recursion is bounded here by
    [fuel]; [rec_fuel_enough] below shows that [Nat.log2 n + 1] levels are
    enough. *)
Fixpoint _closest_pair_rec (fuel : nat) (px py : list Point) : res Result :=
  match fuel with
  | O => Raise OutOfFuel
  | S fuel =>
    let n := length px in
    if decide (n ≤ 3)%nat then brute_force px else
    let mid := (n / 2)%nat in
    let Qx := take mid px in
    let Rx := drop mid px in
    q ← index_last Qx;
    let midx := x q in
    let Qset : gset Point := list_to_set Qx in
    let Qy := filter (λ p, p ∈ Qset) py in
    let Ry := filter (λ p, p ∉ Qset) py in
    l ← _closest_pair_rec fuel Qx Qy;
    r ← _closest_pair_rec fuel Rx Ry;
    let best := combine l r in
    let strip := strip_of py midx best.1 in
    Ok (strip_scan strip best)
  end.

(** [def closest_pair(points)] *)
Definition closest_pair (points : list Point) : res Result :=
  if decide (length points < 2)%nat then Raise ValueError else
  let px := sorted le_xy points in
  let py := sorted le_yx points in
  _closest_pair_rec (length points) px py.

(** [example_sets()[0]] *)
Definition example1 : list Point :=
  [mkPoint 0 0; mkPoint 2 3; mkPoint 3 4; mkPoint 5 1; mkPoint 1 1;
   mkPoint 4 4; mkPoint 7 2; mkPoint 6 6; mkPoint 8 5; mkPoint 9 1].

(** ** The two loops as one scan over index pairs *)

Definition dist_at (l : list Point) (ij : nat * nat) : Dist :=
  dist (l !!! ij.1) (l !!! ij.2).
Definition pair_at (l : list Point) (ij : nat * nat) : Point * Point :=
  (l !!! ij.1, l !!! ij.2).
#[global] Arguments dist_at : simpl never.
#[global] Arguments pair_at : simpl never.

(** A loop nest as one fold over the index pairs it visits, in order. *)
Definition scan (l : list Point) (start : Result) (ps : list (nat * nat)) : Result :=
  foldl (λ acc ij, improve l ij.1 acc ij.2) start ps.

(** The index pairs [(i, j)], [i] from [idx] and [j] from [J i], in the order
    in which [for i in idx: for j in J(i)] visits them. *)
Definition visits (idx : list nat) (J : nat → list nat) : list (nat * nat) :=
  i ← idx; pair i <$> J i.

(** What a scan returns: either the start value, no visited pair being
    strictly closer, or the first visited pair of least distance. *)
Inductive scan_outcome (l : list Point) (start : Result) (ps : list (nat * nat)) :
  Result → Prop :=
  | scan_keep :
      Forall (λ k, Dist.le start.1 (dist_at l k)) ps →
      scan_outcome l start ps start
  | scan_found ps1 ij ps2 :
      ps = ps1 ++ ij :: ps2 →
      Dist.lt (dist_at l ij) start.1 →
      Forall (λ k, Dist.lt (dist_at l ij) (dist_at l k)) ps1 →
      Forall (λ k, Dist.le (dist_at l ij) (dist_at l k)) ps2 →
      scan_outcome l start ps (dist_at l ij, pair_at l ij).

(** ** The index pairs visited by the two loop nests *)

#[local] Open Scope nat_scope.

(** [for i in range(n): for j in range(i + 1, n)] *)
Definition all_pairs (n : nat) : list (nat * nat) :=
  visits (range 0 n) (λ i, range (i + 1) n).

(** [for i in range(m): for j in range(i + 1, min(i + 8, m))] *)
Definition window_pairs (m : nat) : list (nat * nat) :=
  visits (range 0 m) (λ i, range (i + 1) (min (i + 8) m)).

(** Index order: [i] ascending, then [j] ascending. *)
Definition lex_lt (a b : nat * nat) : Prop :=
  a.1 < b.1 ∨ (a.1 = b.1 ∧ a.2 < b.2).

(** ** The least pairwise distance *)

(** [d] is the least distance between two entries of [l] at different
    positions. *)
Definition min_pairwise (l : list Point) (d : Dist) : Prop :=
  (∀ i j, i < j < length l → Dist.le d (dist (l !!! i) (l !!! j)))
  ∧ ∃ i j, i < j < length l ∧ d = dist (l !!! i) (l !!! j).

(** The same two properties in a form stable under permutation. *)
Fixpoint far_apart (d : Dist) (l : list Point) : Prop :=
  match l with
  | [] => True
  | p :: l => Forall (λ q, Dist.le d (dist p q)) l ∧ far_apart d l
  end.

(** [d] is the distance between two entries of [l]. *)
Definition attained (d : Dist) (l : list Point) : Prop :=
  ∃ p q l', l ≡ₚ p :: q :: l' ∧ d = dist p q.

(** ** One level of the recursion *)

(** The four lists a call passes down. *)
Definition Qx_of (px : list Point) : list Point := take (length px / 2) px.
Definition Rx_of (px : list Point) : list Point := drop (length px / 2) px.
Definition Qset_of (px : list Point) : gset Point := list_to_set (Qx_of px).
Definition Qy_of (px py : list Point) : list Point := filter (λ p, p ∈ Qset_of px) py.
Definition Ry_of (px py : list Point) : list Point := filter (λ p, p ∉ Qset_of px) py.

(** ** The call tree *)

(** [subcall c c']: the call on [c = (px, py)] makes the recursive call on [c']. *)
Inductive subcall : relation (list Point * list Point) :=
  | subcall_left px py :
      3 < length px → subcall (px, py) (Qx_of px, Qy_of px py)
  | subcall_right px py :
      3 < length px → subcall (px, py) (Rx_of px, Ry_of px py).

(** The arguments of the first call, made by [closest_pair]. *)
Definition root (points : list Point) : list Point * list Point :=
  (sorted le_xy points, sorted le_yx points).

(** The calls made, directly or not, from the call on [c]. *)
Definition calls : relation (list Point * list Point) := rtc subcall.

(** ** Geometry of the strip *)

#[local] Open Scope Z_scope.

(** The quarter of the square [x0 ± √D] × [y0, y0 + √D] a point falls in. *)
Definition cell (D x0 y0 : Z) (s : Point) : bool * bool :=
  (bool_decide (4 * ((x s - x0) * (x s - x0)) ≤ D),
   bool_decide (4 * ((y s - y0) * (y s - y0)) ≤ D)).

(** ** Invariants of the call tree *)

#[local] Open Scope nat_scope.


(** What holds in addition when the input has no repeated point. *)
Definition call_clean (c : list Point * list Point) : Prop :=
  NoDup c.1 ∧ c.2 ≡ₚ c.1.

(** ** Two inputs with repeated points *)

Definition four_equal : list Point :=
  [mkPoint 0 0; mkPoint 0 0; mkPoint 0 0; mkPoint 0 0].

Definition collinear8 : list Point :=
  [mkPoint 0 0; mkPoint 0 10; mkPoint 0 20; mkPoint 0 30;
   mkPoint 0 30; mkPoint 0 40; mkPoint 0 50; mkPoint 0 60].

(** Five points on a diagonal, in (x, y) order and in (y, x) order at once. *)
Definition diagonal5 : list Point :=
  [mkPoint 0 0; mkPoint 1 1; mkPoint 2 2; mkPoint 3 3; mkPoint 4 4].

(** ** Number of distance evaluations *)


(** ** Denotation of distances in the reals *)

(** [Sqrt s] stands for the real √s, and the comparisons of the embedding are
    the comparisons of these reals. *)
Definition to_R (s : Z) : R := sqrt (IZR s).

(** ** Parsing and generating points *)

#[local] Open Scope nat_scope.

(** [s.split(sep)] for a separator of one character. *)
Fixpoint split_on (sep : ascii) (s : string) : list string :=
  match s with
  | EmptyString => [EmptyString]
  | String c s' =>
      if decide (c = sep) then EmptyString :: split_on sep s'
      else match split_on sep s' with
           | part :: parts => String c part :: parts
           | [] => [String c EmptyString]
           end
  end.

(** [s.count(sep)] *)
Fixpoint count_char (sep : ascii) (s : string) : nat :=
  match s with
  | EmptyString => 0
  | String c s' => (if decide (c = sep) then 1 else 0) + count_char sep s'
  end.

Section from_str.
(** The builtin [float], on the texts whose value the embedding represents;
    it raises on the others. *)
Variable float : string → res Z.

(** [Point.from_str(s)] *)
Definition from_str (s : string) : res Point :=
  let parts := split_on "," s in
  if decide (length parts ≠ 2) then Raise ValueError else
  p0 ← index parts 0;
  fx ← float p0;
  p1 ← index parts 1;
  fy ← float p1;
  Ok (mkPoint fx fy).
End from_str.

(** [float] on the one-digit numerals, to run [from_str] on. *)
Definition digit_float (s : string) : res Z :=
  match s with
  | String c EmptyString =>
      match Ascii.is_nat c with
      | Some n => Ok (Z.of_nat n)
      | None => Raise ValueError
      end
  | _ => Raise ValueError
  end.

#[local] Open Scope Z_scope.

Section random_points.
(** The generator [random.Random]: its states, [random.Random(seed)], and
    [rng.randint(a, b)] as the value drawn with the next state. *)
Variable Rng : Type.
Variable Random : Z → Rng.
Variable randint : Rng → Z → Z → Z * Rng.

(** The loop [for _ in range(n): pts.append(Point(rng.randint(-50, 50),
    rng.randint(-50, 50)))], [k] rounds left. *)
Fixpoint random_points_loop (k : nat) (rng : Rng) (pts : list Point) : list Point :=
  match k with
  | O => pts
  | S k =>
      let '(vx, rng) := randint rng (-50) 50 in
      let '(vy, rng) := randint rng (-50) 50 in
      random_points_loop k rng (pts ++ [mkPoint vx vy])
  end.

(** [def random_points(n, seed)] *)
Definition random_points (n seed : Z) : list Point :=
  let rng := Random seed in
  let pts := [] in
  random_points_loop (Z.to_nat n) rng pts.
End random_points.

(** A generator that counts, to run [random_points] on. *)
Definition counter_Random (seed : Z) : Z := seed.
Definition counter_randint (g a b : Z) : Z * Z :=
  (a + g `mod` (b - a + 1), g + 1)%Z.

(** Both coordinates are values [randint(-50, 50)] can give. *)
Definition in_range (p : Point) : Prop :=
  (-50 ≤ x p ≤ 50) ∧ (-50 ≤ y p ≤ 50).

(** The 101 × 101 points [randint(-50, 50)] can give. *)
Definition grid : list Point :=
  vx ← seqZ (-50) 101; vy ← seqZ (-50) 101; [mkPoint vx vy].

(** * Properties *)

(** ** The error monad *)

#[local] Open Scope Z_scope.

Lemma bind_Ok {A B} (f : A → res B) (a : A) : Ok a ≫= f = f a.
Proof. done. Qed.

(** ** The order on distances *)

Ltac dist_order :=
  repeat match goal with d : Dist |- _ => destruct d end;
  simpl in *; try done; try lia.

Section dist_order.
Implicit Types a b c : Dist.

Lemma le_refl a : Dist.le a a.
Proof. dist_order. Qed.
Lemma le_trans a b c : Dist.le a b → Dist.le b c → Dist.le a c.
Proof. dist_order. Qed.
Lemma lt_le_trans a b c : Dist.lt a b → Dist.le b c → Dist.lt a c.
Proof. dist_order. Qed.
Lemma lt_trans a b c : Dist.lt a b → Dist.lt b c → Dist.lt a c.
Proof. dist_order. Qed.
Lemma lt_le a b : Dist.lt a b → Dist.le a b.
Proof. dist_order. Qed.
Lemma not_lt_le a b : ¬ Dist.lt a b → Dist.le b a.
Proof. dist_order. Qed.
Lemma not_le_lt a b : ¬ Dist.le a b → Dist.lt b a.
Proof. dist_order. Qed.
Lemma le_not_lt a b : Dist.le a b → ¬ Dist.lt b a.
Proof. dist_order. Qed.
Lemma le_antisym a b : Dist.le a b → Dist.le b a → a = b.
Proof. dist_order. intros. f_equal. lia. Qed.
Lemma le_PInf a : Dist.le a PInf.
Proof. dist_order. Qed.
End dist_order.

#[global] Instance Dist_le_preorder : PreOrder Dist.le.
Proof. split; [exact le_refl | exact le_trans]. Qed.

Create HintDb dist.
#[local] Hint Resolve le_refl lt_le le_PInf : dist.

Lemma dist_sqrt p q :
  dist p q = Sqrt ((x p - x q) * (x p - x q) + (y p - y q) * (y p - y q)).
Proof. done. Qed.

Lemma dist_nonneg p q : Dist.le (Sqrt 0) (dist p q).
Proof.
  rewrite dist_sqrt. generalize (x p - x q) (y p - y q). intros a b.
  cbn [Dist.le]. nia.
Qed.

Lemma dist_sym p q : dist p q = dist q p.
Proof. rewrite !dist_sqrt. f_equal. ring. Qed.

Lemma dist_self p : dist p p = Sqrt 0.
Proof. rewrite dist_sqrt. f_equal. ring. Qed.

Lemma dist_zero p q : dist p q = Sqrt 0 → p = q.
Proof.
  rewrite dist_sqrt. intros [= H]. destruct p as [a b], q as [c d]; simpl in *.
  pose proof (Z.square_nonneg (a - c)) as Hu.
  pose proof (Z.square_nonneg (b - d)) as Hv.
  assert (Hu0 : (a - c) * (a - c) = 0) by lia.
  assert (Hv0 : (b - d) * (b - d) = 0) by lia.
  apply Z.eq_mul_0 in Hu0, Hv0. f_equal; lia.
Qed.

(** ** The two loops as one scan over index pairs *)

Lemma loops_scan l (J : nat → list nat) idx start :
  foldl (λ acc i, foldl (improve l i) acc (J i)) start idx
  = scan l start (visits idx J).
Proof.
  unfold scan, visits. revert start. induction idx as [|i idx IH]; intros start; [done|].
  simpl. rewrite foldl_app, foldl_fmap. apply IH.
Qed.

Lemma improve_cases l start k :
  (Dist.lt (dist_at l k) start.1 ∧ improve l k.1 start k.2 = (dist_at l k, pair_at l k))
  ∨ (Dist.le start.1 (dist_at l k) ∧ improve l k.1 start k.2 = start).
Proof.
  unfold improve, dist_at, pair_at. destruct start as [best pr]; simpl.
  case_decide; [left | right]; split; auto using not_lt_le.
Qed.

Lemma scan_spec l start ps : scan_outcome l start ps (scan l start ps).
Proof.
  induction ps as [|k ps IH] using rev_ind.
  { apply scan_keep. constructor. }
  unfold scan in *. rewrite foldl_snoc.
  destruct IH as [Hall | ps1 ij ps2 -> Hlt H1 H2].
  - destruct (improve_cases l start k) as [[Hk ->] | [Hk ->]].
    + apply scan_found with (ps1 := ps) (ps2 := []); [done | done | | constructor].
      eapply Forall_impl; [exact Hall|]. cbv beta. eauto using lt_le_trans.
    + apply scan_keep. apply Forall_app; split; auto.
  - destruct (improve_cases l (dist_at l ij, pair_at l ij) k) as [[Hk ->] | [Hk ->]];
      cbn [fst] in Hk.
    + apply scan_found with (ps1 := ps1 ++ ij :: ps2) (ps2 := []);
        [done | exact (lt_trans _ _ _ Hk Hlt) | | constructor].
      apply Forall_app; split; [|constructor].
      * eapply Forall_impl; [exact H1|]. cbv beta. eauto using lt_trans.
      * done.
      * eapply Forall_impl; [exact H2|]. cbv beta. eauto using lt_le_trans.
    + apply scan_found with (ps1 := ps1) (ps2 := ps2 ++ [k]); [|done|done|].
      * by rewrite <-app_assoc.
      * apply Forall_app; split; auto.
Qed.

Lemma scan_le_start l start ps : Dist.le (scan l start ps).1 start.1.
Proof. destruct (scan_spec l start ps); cbn [fst]; auto with dist. Qed.

Lemma scan_le_visited l start ps k :
  k ∈ ps → Dist.le (scan l start ps).1 (dist_at l k).
Proof.
  intros Hk. destruct (scan_spec l start ps) as [Hall | ps1 ij ps2 -> Hlt H1 H2]; cbn [fst].
  - by eapply Forall_forall in Hall.
  - rewrite elem_of_app, elem_of_cons in Hk. destruct Hk as [Hk | [-> | Hk]].
    + eapply Forall_forall in H1; eauto with dist.
    + apply le_refl.
    + by eapply Forall_forall in H2.
Qed.

Lemma scan_start_or_visited l start ps :
  scan l start ps = start
  ∨ ∃ k, k ∈ ps ∧ scan l start ps = (dist_at l k, pair_at l k)
         ∧ Dist.lt (dist_at l k) start.1.
Proof.
  destruct (scan_spec l start ps) as [Hall | ps1 ij ps2 -> Hlt H1 H2]; [by left|].
  right. exists ij. split; [|done]. rewrite elem_of_app, elem_of_cons. auto.
Qed.

(** ** The index pairs visited by the two loop nests *)

#[local] Open Scope nat_scope.

Lemma elem_of_range a b i : i ∈ range a b ↔ a ≤ i < b.
Proof. unfold range. rewrite elem_of_seq. lia. Qed.

Lemma elem_of_visits idx J i j : (i, j) ∈ visits idx J ↔ i ∈ idx ∧ j ∈ J i.
Proof.
  unfold visits. rewrite list_elem_of_bind. split.
  - intros (i' & Hj & Hi). apply list_elem_of_fmap in Hj as (j' & [= -> ->] & Hj). done.
  - intros [Hi Hj]. exists i. split; [|done]. by apply list_elem_of_fmap_2.
Qed.

Lemma elem_of_all_pairs n i j : (i, j) ∈ all_pairs n ↔ i < j < n.
Proof. unfold all_pairs. rewrite elem_of_visits, !elem_of_range. lia. Qed.

Lemma elem_of_window_pairs m i j :
  (i, j) ∈ window_pairs m ↔ i < j < m ∧ j < i + 8.
Proof. unfold window_pairs. rewrite elem_of_visits, !elem_of_range. lia. Qed.

Lemma StronglySorted_range a b : StronglySorted lt (range a b).
Proof.
  unfold range. generalize (b - a) as n. intros n. revert a.
  induction n as [|n IH]; intros a; simpl; constructor; [apply IH|].
  apply Forall_forall. intros k Hk%elem_of_seq. lia.
Qed.

Lemma StronglySorted_visits idx J :
  StronglySorted lt idx → (∀ i, StronglySorted lt (J i)) →
  StronglySorted lex_lt (visits idx J).
Proof.
  intros Hidx HJ. unfold visits. induction Hidx as [|i idx Hidx IH Hi].
  { constructor. }
  rewrite bind_cons. apply StronglySorted_app_2.
  - intros a [i' j'] Ha Hb.
    apply list_elem_of_fmap in Ha as (j & -> & Hj).
    apply (elem_of_visits idx J) in Hb as [Hi' _].
    left. simpl. by eapply Forall_forall in Hi.
  - eapply StronglySorted_fmap; [|apply HJ]. intros j j' Hlt. right. simpl. lia.
  - apply IH.
Qed.

Lemma StronglySorted_all_pairs n : StronglySorted lex_lt (all_pairs n).
Proof. apply StronglySorted_visits; auto using StronglySorted_range. Qed.

Lemma lex_lt_asym a b : lex_lt a b → ¬ lex_lt b a.
Proof. unfold lex_lt. lia. Qed.

Lemma lex_lt_irrefl a : ¬ lex_lt a a.
Proof. unfold lex_lt. lia. Qed.

(** ** The exhaustive search *)

Lemma brute_force_scan l p0 :
  l !! 0 = Some p0 →
  brute_force l = Ok (scan l (PInf, (p0, p0)) (all_pairs (length l))).
Proof.
  intros H0. unfold brute_force, index. rewrite H0. simpl.
  f_equal. apply loops_scan.
Qed.

Lemma strip_scan_scan strip start :
  strip_scan strip start = scan strip start (window_pairs (length strip)).
Proof. apply loops_scan. Qed.

Lemma brute_force_total l : l ≠ [] → ∃ r, brute_force l = Ok r.
Proof. destruct l as [|p0 l]; [done|]. intros _. erewrite brute_force_scan; eauto. Qed.

(** On two points or more the search returns the first pair, in index
    order, among the pairs of least distance. *)
Lemma brute_force_spec l :
  2 ≤ length l →
  ∃ i j, i < j < length l
    ∧ brute_force l = Ok (dist (l !!! i) (l !!! j), (l !!! i, l !!! j))
    ∧ (∀ i' j', i' < j' < length l →
         Dist.le (dist (l !!! i) (l !!! j)) (dist (l !!! i') (l !!! j')))
    ∧ (∀ i' j', i' < j' < length l → lex_lt (i', j') (i, j) →
         Dist.lt (dist (l !!! i) (l !!! j)) (dist (l !!! i') (l !!! j'))).
Proof.
  intros Hlen. destruct l as [|p0 l]; [simpl in Hlen; lia|].
  rewrite (brute_force_scan _ p0) by done.
  pose proof (StronglySorted_all_pairs (length (p0 :: l))) as Hsorted.
  destruct (scan_spec (p0 :: l) (PInf, (p0, p0)) (all_pairs (length (p0 :: l))))
    as [Hall | ps1 [i j] ps2 Hps Hlt H1 H2].
  - exfalso. eapply Forall_forall with (x := (0, 1)) in Hall.
    + by destruct (dist_at (p0 :: l) (0, 1)) eqn:E.
    + apply elem_of_all_pairs. lia.
  - assert (Hin : ∀ k, k ∈ all_pairs (length (p0 :: l)) ↔ k ∈ ps1 ∨ k = (i, j) ∨ k ∈ ps2).
    { intros k. by rewrite Hps, elem_of_app, elem_of_cons. }
    rewrite Hps in Hsorted. rewrite Forall_forall in H1, H2.
    exists i, j. split; [|split; [done|split]].
    + apply elem_of_all_pairs, Hin. auto.
    + intros i' j' Hij%elem_of_all_pairs. apply Hin in Hij as [Hk | [[= -> ->] | Hk]].
      * apply lt_le, (H1 _ Hk).
      * apply le_refl.
      * apply (H2 _ Hk).
    + intros i' j' Hij%elem_of_all_pairs Hlex.
      apply Hin in Hij as [Hk | [[= -> ->] | Hk]].
      * apply (H1 _ Hk).
      * by apply lex_lt_irrefl in Hlex.
      * exfalso. eapply lex_lt_asym; [exact Hlex|].
        eapply StronglySorted_app_1_r, StronglySorted_cons in Hsorted as [Hsorted _].
        rewrite Forall_forall in Hsorted. apply (Hsorted _ Hk).
Qed.

(** ** The least pairwise distance *)

Lemma far_apart_app d l1 l2 :
  far_apart d (l1 ++ l2) ↔
    far_apart d l1 ∧ far_apart d l2 ∧ ∀ p q, p ∈ l1 → q ∈ l2 → Dist.le d (dist p q).
Proof.
  induction l1 as [|p l1 IH]; simpl.
  - split; [intros; split_and!; [done..|] | tauto]. by intros ?? ?%elem_of_nil.
  - rewrite IH, Forall_app, !Forall_forall. split.
    + intros ([H1 H2] & H3 & H4 & H5). split_and!; try done.
      intros p' q [->|Hp]%elem_of_cons Hq; auto.
    + intros ([H1 H2] & H3 & H4). split_and!; try done.
      * intros q Hq. apply H4; [left|done].
      * intros p' q Hp Hq. apply H4; [by right|done].
Qed.

Lemma far_apart_mono d d' l : Dist.le d' d → far_apart d l → far_apart d' l.
Proof.
  intros Hle. induction l as [|p l IH]; simpl; [done|]. intros [H1 H2]. split; auto.
  eapply Forall_impl; [exact H1|]. cbv beta. eauto using le_trans.
Qed.

#[global] Instance far_apart_perm d : Proper ((≡ₚ) ==> iff) (far_apart d).
Proof.
  assert (∀ l k, l ≡ₚ k → far_apart d l → far_apart d k) as Himp.
  { induction 1 as [|p l k Hlk IH|p q l|l k m _ IH1 _ IH2]; simpl; [done|..].
    - intros [H1 H2]. split; [by rewrite <-Hlk | auto].
    - rewrite !Forall_cons. intros [[H1 H2] [H3 H4]]. rewrite (dist_sym p q). done.
    - auto. }
  intros l k Hlk. split; apply Himp; [done | by symmetry].
Qed.

Lemma far_apart_elem_of d l p q :
  far_apart d l → p ∈ l → q ∈ l → p ≠ q → Dist.le d (dist p q).
Proof.
  induction l as [|a l IH]; simpl; [by intros _ ?%elem_of_nil|].
  rewrite Forall_forall. intros [H1 H2] [->|Hp]%elem_of_cons [->|Hq]%elem_of_cons Hne;
    try done; auto.
  rewrite dist_sym. auto.
Qed.

Lemma far_apart_NoDup d l : Dist.lt (Sqrt 0) d → far_apart d l → NoDup l.
Proof.
  intros Hd. induction l as [|p l IH]; simpl; [constructor|].
  rewrite Forall_forall. intros [H1 H2]. constructor; [|auto].
  intros Hp. apply H1 in Hp. rewrite dist_self in Hp.
  by eapply le_not_lt in Hp.
Qed.

Lemma far_apart_lookup d l :
  far_apart d l ↔ ∀ i j, i < j < length l → Dist.le d (dist (l !!! i) (l !!! j)).
Proof.
  induction l as [|p l IH]; simpl.
  { split; [intros; lia | done]. }
  rewrite IH, Forall_forall. split.
  - intros [H1 H2] i [|j] Hij; [lia|]. destruct i as [|i]; simpl.
    + apply H1. apply list_elem_of_lookup_total_2. lia.
    + apply H2. lia.
  - intros H. split.
    + intros q (k & Hk & <-)%list_elem_of_lookup_total_1. apply (H 0 (S k)). lia.
    + intros i j Hij. apply (H (S i) (S j)). lia.
Qed.

#[global] Instance attained_perm d : Proper ((≡ₚ) ==> iff) (attained d).
Proof. intros l k Hlk. unfold attained. by setoid_rewrite Hlk. Qed.

Lemma attained_app_l d l1 l2 : attained d l1 → attained d (l1 ++ l2).
Proof.
  intros (p & q & l' & Hl & ->). exists p, q, (l' ++ l2). split; [|done].
  by rewrite Hl.
Qed.

Lemma attained_app_r d l1 l2 : attained d l2 → attained d (l1 ++ l2).
Proof. rewrite (Permutation_app_comm l1 l2). apply attained_app_l. Qed.

Lemma attained_submseteq d l k : l ⊆+ k → attained d l → attained d k.
Proof.
  intros (k' & ->)%submseteq_Permutation. apply attained_app_l.
Qed.

Lemma attained_lookup l i j :
  i < j < length l → attained (dist (l !!! i) (l !!! j)) l.
Proof.
  intros Hij. exists (l !!! i), (l !!! j), (take i l ++ drop (S i) (take j l) ++ drop (S j) l).
  split; [|done].
  assert (Hj : l !! j = Some (l !!! j)) by (apply list_lookup_lookup_total_lt; lia).
  assert (Hi : take j l !! i = Some (l !!! i)).
  { rewrite lookup_take_lt by lia. apply list_lookup_lookup_total_lt. lia. }
  rewrite <-(take_drop_middle l j _ Hj) at 1.
  rewrite <-(take_drop_middle (take j l) i _ Hi) at 1.
  rewrite take_take, Nat.min_l by lia.
  rewrite <-!app_assoc, <-!app_comm_cons.
  rewrite <-Permutation_middle. apply perm_skip.
  rewrite app_assoc. rewrite <-Permutation_middle. by rewrite <-app_assoc.
Qed.

Lemma attained_two d l :
  attained d l ↔ ∃ i j, i < j < length l ∧ d = dist (l !!! i) (l !!! j).
Proof.
  split; [|intros (i & j & Hij & ->); by apply attained_lookup].
  intros (p & q & l' & Hl & ->).
  assert (Hp : p ∈ l) by (rewrite Hl; left).
  apply list_elem_of_split in Hp as (l1 & l2 & ->).
  rewrite <-Permutation_middle in Hl. apply Permutation_cons_inv in Hl.
  assert (Hq : q ∈ l1 ++ l2) by (rewrite Hl; left).
  assert (∀ k, (l1 ++ p :: l2) !!! (length l1 + k) = (p :: l2) !!! k) as Hr.
  { intros k. rewrite lookup_total_app_r by lia. f_equal. lia. }
  apply elem_of_app in Hq as [(k & Hk & <-)%list_elem_of_lookup_total_1
                            | (k & Hk & <-)%list_elem_of_lookup_total_1].
  - exists k, (length l1 + 0). rewrite length_app. simpl. split; [lia|].
    rewrite Hr, lookup_total_app_l by lia. simpl. apply dist_sym.
  - exists (length l1 + 0), (length l1 + S k). rewrite length_app. simpl.
    split; [lia|]. by rewrite !Hr.
Qed.

Lemma min_pairwise_alt l d : min_pairwise l d ↔ far_apart d l ∧ attained d l.
Proof. unfold min_pairwise. by rewrite far_apart_lookup, attained_two. Qed.

Lemma attained_far_apart_le d d' l : far_apart d l → attained d' l → Dist.le d d'.
Proof.
  rewrite far_apart_lookup, attained_two. intros H (i & j & Hij & ->). auto.
Qed.

Lemma min_pairwise_unique l d d' : min_pairwise l d → min_pairwise l d' → d = d'.
Proof.
  rewrite !min_pairwise_alt. intros [H1 H2] [H3 H4].
  apply le_antisym; eauto using attained_far_apart_le.
Qed.

#[global] Instance min_pairwise_perm : Proper ((≡ₚ) ==> (=) ==> iff) min_pairwise.
Proof. intros l k Hlk d ? <-. by rewrite !min_pairwise_alt, Hlk. Qed.

Lemma brute_force_min l :
  2 ≤ length l → ∃ d pr, brute_force l = Ok (d, pr) ∧ min_pairwise l d.
Proof.
  intros (i & j & Hij & Hbf & Hle & _)%brute_force_spec.
  eexists _, _. split; [done|]. split; eauto.
Qed.

(** ** One level of the recursion *)

Lemma half_bounds n : 3 < n → 2 ≤ n / 2 < n ∧ 2 ≤ n - n / 2 < n.
Proof. intros Hn. pose proof (Nat.div_mod_eq n 2). pose proof (Nat.mod_upper_bound n 2). lia. Qed.

Lemma Qx_Rx_app px : Qx_of px ++ Rx_of px = px.
Proof. apply take_drop. Qed.

Lemma length_Qx px : length (Qx_of px) = length px / 2.
Proof.
  unfold Qx_of. rewrite length_take. pose proof (Nat.div_mod_eq (length px) 2). lia.
Qed.

Lemma length_Rx px : length (Rx_of px) = length px - length px / 2.
Proof. unfold Rx_of. by rewrite length_drop. Qed.

Lemma elem_of_Qset px p : p ∈ Qset_of px ↔ p ∈ Qx_of px.
Proof. unfold Qset_of. by rewrite elem_of_list_to_set. Qed.

Lemma rec_base fuel px py :
  length px ≤ 3 → _closest_pair_rec (S fuel) px py = brute_force px.
Proof. intros Hn. simpl. by rewrite decide_True. Qed.

Lemma rec_step fuel px py :
  3 < length px →
  _closest_pair_rec (S fuel) px py =
    q ← index_last (Qx_of px);
    l ← _closest_pair_rec fuel (Qx_of px) (Qy_of px py);
    r ← _closest_pair_rec fuel (Rx_of px) (Ry_of px py);
    Ok (strip_scan (strip_of py (x q) (combine l r).1) (combine l r)).
Proof. intros Hn. simpl. rewrite decide_False by lia. done. Qed.

Lemma last_Qx px : 3 < length px → ∃ q, last (Qx_of px) = Some q ∧ q ∈ Qx_of px.
Proof.
  intros Hn. pose proof (length_Qx px) as Hlen. pose proof (half_bounds _ Hn).
  destruct (last (Qx_of px)) as [q|] eqn:Hq.
  - exists q. split; [done|]. rewrite last_lookup in Hq. by eapply list_elem_of_lookup_2.
  - apply last_None in Hq. rewrite Hq in Hlen. cbn [length] in Hlen. lia.
Qed.

(** What a call on more than three points returns, in terms of what its two
    recursive calls return. *)
Lemma rec_step_inv fuel px py res :
  3 < length px →
  _closest_pair_rec (S fuel) px py = Ok res →
  ∃ q l r, last (Qx_of px) = Some q
    ∧ _closest_pair_rec fuel (Qx_of px) (Qy_of px py) = Ok l
    ∧ _closest_pair_rec fuel (Rx_of px) (Ry_of px py) = Ok r
    ∧ res = strip_scan (strip_of py (x q) (combine l r).1) (combine l r).
Proof.
  intros Hn. rewrite rec_step by done. unfold index_last.
  destruct (last_Qx px Hn) as (q & -> & _). rewrite bind_Ok.
  destruct (_closest_pair_rec fuel (Qx_of px) _) as [l|] eqn:Hl; [|done].
  rewrite bind_Ok.
  destruct (_closest_pair_rec fuel (Rx_of px) _) as [r|] eqn:Hr; [|done].
  rewrite bind_Ok. intros [= <-]. by exists q, l, r.
Qed.

(** ** Termination and recursion depth *)

(** [S fuel] levels are enough for [3 * 2 ^ fuel] points. *)
Lemma rec_total fuel px py :
  px ≠ [] → length px ≤ 3 * 2 ^ fuel →
  ∃ res, _closest_pair_rec (S fuel) px py = Ok res.
Proof.
  revert px py. induction fuel as [|fuel IH]; intros px py Hne Hlen.
  { rewrite rec_base by (simpl in Hlen; lia). by apply brute_force_total. }
  destruct (decide (length px ≤ 3)) as [Hn|Hn].
  { rewrite rec_base by done. by apply brute_force_total. }
  assert (Hn' : 3 < length px) by lia.
  pose proof (half_bounds _ Hn') as [H1 H2].
  rewrite Nat.pow_succ_r' in Hlen.
  rewrite rec_step by done. unfold index_last.
  destruct (last_Qx px Hn') as (q & -> & _). rewrite bind_Ok.
  destruct (IH (Qx_of px) (Qy_of px py)) as [l ->].
  { intros Hnil. pose proof (length_Qx px) as HQ. rewrite Hnil in HQ. cbn [length] in HQ. lia. }
  { rewrite length_Qx. pose proof (Nat.div_mod_eq (length px) 2). lia. }
  destruct (IH (Rx_of px) (Ry_of px py)) as [r ->].
  { intros Hnil. pose proof (length_Rx px) as HR. rewrite Hnil in HR. cbn [length] in HR. lia. }
  { rewrite length_Rx. pose proof (Nat.div_mod_eq (length px) 2).
    pose proof (Nat.mod_upper_bound (length px) 2). lia. }
  rewrite !bind_Ok. eauto.
Qed.

(** More fuel does not change a result. *)
Lemma rec_fuel_mono fuel fuel' px py res :
  fuel ≤ fuel' →
  _closest_pair_rec fuel px py = Ok res → _closest_pair_rec fuel' px py = Ok res.
Proof.
  revert fuel' px py res. induction fuel as [|fuel IH]; intros fuel' px py res Hle; [done|].
  destruct fuel' as [|fuel']; [lia|].
  destruct (decide (length px ≤ 3)) as [Hn|Hn].
  { by rewrite !rec_base. }
  intros (q & l & r & Hq & Hl & Hr & ->)%rec_step_inv; [|lia].
  rewrite rec_step by lia. unfold index_last. rewrite Hq, bind_Ok.
  assert (fuel ≤ fuel') as Hle' by lia.
  by rewrite (IH fuel' _ _ l Hle' Hl), bind_Ok, (IH fuel' _ _ r Hle' Hr), bind_Ok.
Qed.

Lemma rec_fuel_enough fuel px py :
  px ≠ [] → Nat.log2 (length px) + 1 ≤ fuel →
  ∃ res, _closest_pair_rec fuel px py = Ok res.
Proof.
  intros Hne Hfuel.
  destruct (rec_total (Nat.log2 (length px)) px py) as [res Hres]; [done| |].
  - assert (0 < length px) as Hpos by (destruct px; [done|simpl; lia]).
    pose proof (Nat.log2_spec _ Hpos) as [_ Hlt].
    rewrite Nat.pow_succ_r' in Hlt. lia.
  - exists res. eapply rec_fuel_mono; [|exact Hres]. lia.
Qed.

Lemma log2_succ_le n : 0 < n → Nat.log2 n + 1 ≤ n.
Proof. intros Hn. pose proof (Nat.log2_lt_lin n Hn). lia. Qed.

(** ** The two key orders and the presort *)

#[local] Open Scope Z_scope.

#[global] Instance le_xy_trans : Transitive le_xy.
Proof. unfold le_xy. intros ???. lia. Qed.
#[global] Instance le_xy_total : Total le_xy.
Proof. unfold le_xy. intros ??. lia. Qed.
#[global] Instance le_xy_antisym : AntiSymm (=) le_xy.
Proof. unfold le_xy. intros [a b] [c d]; simpl. intros ??. f_equal; lia. Qed.
#[global] Instance le_yx_trans : Transitive le_yx.
Proof. unfold le_yx. intros ???. lia. Qed.
#[global] Instance le_yx_total : Total le_yx.
Proof. unfold le_yx. intros ??. lia. Qed.
#[global] Instance le_yx_antisym : AntiSymm (=) le_yx.
Proof. unfold le_yx. intros [a b] [c d]; simpl. intros ??. f_equal; lia. Qed.

Lemma le_xy_x p q : le_xy p q → x p ≤ x q.
Proof. unfold le_xy. lia. Qed.
Lemma le_yx_y p q : le_yx p q → y p ≤ y q.
Proof. unfold le_yx. lia. Qed.

#[local] Open Scope nat_scope.

Lemma sorted_xy_Permutation points : sorted le_xy points ≡ₚ points.
Proof. apply merge_sort_Permutation. Qed.
Lemma sorted_yx_Permutation points : sorted le_yx points ≡ₚ points.
Proof. apply merge_sort_Permutation. Qed.
Lemma sorted_xy_StronglySorted points : StronglySorted le_xy (sorted le_xy points).
Proof. apply StronglySorted_merge_sort; apply _. Qed.
Lemma sorted_yx_StronglySorted points : StronglySorted le_yx (sorted le_yx points).
Proof. apply StronglySorted_merge_sort; apply _. Qed.

Section list_facts.
Context {A : Type}.
Implicit Types l k : list A.

Lemma filter_all (P : A → Prop) `{!∀ a, Decision (P a)} l :
  (∀ a, a ∈ l → P a) → filter P l = l.
Proof.
  induction l as [|a l IH]; [done|]. intros HP.
  rewrite filter_cons_True by (apply HP; left). f_equal. apply IH.
  intros b Hb. apply HP. by right.
Qed.

Lemma filter_none (P : A → Prop) `{!∀ a, Decision (P a)} l :
  (∀ a, a ∈ l → ¬ P a) → filter P l = [].
Proof.
  induction l as [|a l IH]; [done|]. intros HP.
  rewrite filter_cons_False by (apply HP; left). apply IH.
  intros b Hb. apply HP. by right.
Qed.

Lemma StronglySorted_sublist (R : relation A) l k :
  l `sublist_of` k → StronglySorted R k → StronglySorted R l.
Proof.
  induction 1 as [|a l k Hlk IH|a l k Hlk IH]; [done|..];
    rewrite !StronglySorted_cons; intros [H1 H2].
  - split; [|auto]. rewrite Forall_forall in *. intros b Hb.
    apply H1. by eapply sublist_subseteq.
  - auto.
Qed.

Lemma StronglySorted_lookup `{!Inhabited A} (R : relation A) l i j :
  StronglySorted R l → i < j < length l → R (l !!! i) (l !!! j).
Proof.
  intros Hl Hij.
  assert (Hj : l !! j = Some (l !!! j)) by (apply list_lookup_lookup_total_lt; lia).
  rewrite <-(take_drop_middle l j _ Hj) in Hl.
  eapply StronglySorted_app_1_elem_of; [exact Hl| |left].
  rewrite <-(lookup_total_take_lt l j i) by lia.
  apply list_elem_of_lookup_total_2. rewrite length_take. lia.
Qed.

(** Two entries of a permutation of [a :: b :: k] sit at two positions. *)
Lemma Permutation_two_lookup `{!Inhabited A} l a b k :
  l ≡ₚ a :: b :: k →
  ∃ i j, i ≠ j ∧ i < length l ∧ j < length l ∧ l !!! i = a ∧ l !!! j = b.
Proof.
  intros Hl.
  assert (Ha : a ∈ l) by (rewrite Hl; left).
  apply list_elem_of_split in Ha as (l1 & l2 & ->).
  rewrite <-Permutation_middle in Hl. apply Permutation_cons_inv in Hl.
  assert (Hb : b ∈ l1 ++ l2) by (rewrite Hl; left).
  assert (∀ n, (l1 ++ a :: l2) !!! (length l1 + n) = (a :: l2) !!! n) as Hr.
  { intros n. rewrite lookup_total_app_r by lia. f_equal. lia. }
  rewrite length_app. cbn [length].
  apply elem_of_app in Hb as [(n & Hn & <-)%list_elem_of_lookup_total_1
                            | (n & Hn & <-)%list_elem_of_lookup_total_1].
  - exists (length l1 + 0), n. rewrite Hr, lookup_total_app_l by lia.
    split_and!; (done || lia).
  - exists (length l1 + 0), (length l1 + S n). rewrite !Hr.
    split_and!; (done || lia).
Qed.
End list_facts.

(** ** The partition of the y-ordered list *)

Lemma elem_of_Qy px py p : p ∈ Qy_of px py ↔ p ∈ py ∧ p ∈ Qx_of px.
Proof. unfold Qy_of. rewrite list_elem_of_filter, elem_of_Qset. tauto. Qed.

Lemma elem_of_Ry px py p : p ∈ Ry_of px py ↔ p ∈ py ∧ p ∉ Qx_of px.
Proof. unfold Ry_of. rewrite list_elem_of_filter, elem_of_Qset. tauto. Qed.

Lemma Qy_sublist px py : Qy_of px py `sublist_of` py.
Proof. apply sublist_filter. Qed.

Lemma Ry_sublist px py : Ry_of px py `sublist_of` py.
Proof. apply sublist_filter. Qed.

Lemma Qy_Ry_Permutation px py : Qy_of px py ++ Ry_of px py ≡ₚ py.
Proof. apply (filter_app_complement (λ p, p ∈ Qset_of px)). Qed.

(** When no point value occurs on both sides of the split, the partition of
    [py] by membership in [Qset] is the partition by halves. *)
Lemma Qy_Permutation px py :
  py ≡ₚ px → (∀ p, p ∈ Qx_of px → p ∉ Rx_of px) → Qy_of px py ≡ₚ Qx_of px.
Proof.
  intros Hperm Hdisj. unfold Qy_of. rewrite Hperm, <-(Qx_Rx_app px) at 1.
  rewrite filter_app, filter_all, filter_none, app_nil_r; [done|..].
  - intros p Hp HQ%elem_of_Qset. by eapply Hdisj.
  - intros p Hp. by apply elem_of_Qset.
Qed.

Lemma Ry_Permutation px py :
  py ≡ₚ px → (∀ p, p ∈ Qx_of px → p ∉ Rx_of px) → Ry_of px py ≡ₚ Rx_of px.
Proof.
  intros Hperm Hdisj. unfold Ry_of. rewrite Hperm, <-(Qx_Rx_app px) at 1.
  rewrite filter_app, filter_none, filter_all; [done|..].
  - intros p Hp HQ%elem_of_Qset. by eapply Hdisj.
  - intros p Hp HQ. apply HQ. by apply elem_of_Qset.
Qed.

(** ** Geometry of the strip *)

#[local] Open Scope Z_scope.

(** Two numbers of [0, √D) on the same side of (√D)/2 differ by at most
    (√D)/2. *)
Lemma same_half a b D :
  0 ≤ a → 0 ≤ b → a * a < D → b * b < D →
  (4 * (a * a) ≤ D ↔ 4 * (b * b) ≤ D) →
  4 * ((a - b) * (a - b)) ≤ D.
Proof.
  intros Ha Hb HaD HbD Hcell.
  destruct (decide (4 * (a * a) ≤ D)) as [Hlo|Hhi].
  - assert (4 * (b * b) ≤ D) by tauto. clear Hcell.
    destruct (decide (a ≤ b)).
    + assert (0 ≤ b - a ≤ b) by lia. nia.
    + assert (0 ≤ a - b ≤ a) by lia. nia.
  - assert (¬ 4 * (b * b) ≤ D) by tauto. clear Hcell.
    assert (a < 2 * b) by nia. assert (b < 2 * a) by nia.
    destruct (decide (a ≤ b)).
    + assert (0 ≤ 2 * (b - a) < b) by lia. nia.
    + assert (0 ≤ 2 * (a - b) < a) by lia. nia.
Qed.

Lemma bool_decide_eq_iff (P Q : Prop) `{!Decision P, !Decision Q} :
  bool_decide P = bool_decide Q → (P ↔ Q).
Proof.
  intros Heq. rewrite <-(bool_decide_eq_true Q), <-Heq. by rewrite bool_decide_eq_true.
Qed.

Lemma cell_inj D x0 y0 s t :
  (x s ≤ x0 ∧ x t ≤ x0) ∨ (x0 ≤ x s ∧ x0 ≤ x t) →
  (x s - x0) * (x s - x0) < D → (x t - x0) * (x t - x0) < D →
  y0 ≤ y s → y0 ≤ y t →
  (y s - y0) * (y s - y0) < D → (y t - y0) * (y t - y0) < D →
  Dist.le (Sqrt D) (dist s t) →
  cell D x0 y0 s ≠ cell D x0 y0 t.
Proof.
  intros Hside Hxs Hxt Hys Hyt Hys' Hyt' Hfar. rewrite dist_sqrt in Hfar.
  cbn [Dist.le] in Hfar. unfold cell. intros [= Hcx Hcy].
  assert (4 * ((y s - y t) * (y s - y t)) ≤ D) as Hy.
  { replace (y s - y t) with ((y s - y0) - (y t - y0)) by lia.
    apply same_half; try lia. exact (bool_decide_eq_iff _ _ Hcy). }
  assert (4 * ((x s - x t) * (x s - x t)) ≤ D) as Hx.
  { destruct Hside as [[H1 H2]|[H1 H2]].
    - replace ((x s - x t) * (x s - x t))
        with (((x0 - x s) - (x0 - x t)) * ((x0 - x s) - (x0 - x t))) by ring.
      apply same_half; try lia.
      replace ((x0 - x s) * (x0 - x s)) with ((x s - x0) * (x s - x0)) by ring.
      replace ((x0 - x t) * (x0 - x t)) with ((x t - x0) * (x t - x0)) by ring.
      exact (bool_decide_eq_iff _ _ Hcx).
    - replace (x s - x t) with ((x s - x0) - (x t - x0)) by lia.
      apply same_half; try lia. exact (bool_decide_eq_iff _ _ Hcx). }
  pose proof (Z.square_nonneg (x s - x0)). lia.
Qed.

(** At most four points, pairwise at least √D apart, fit in one half of the
    square. *)
Lemma box_four (l : list Point) D x0 y0 :
  NoDup l →
  (∀ s, s ∈ l → x s ≤ x0) ∨ (∀ s, s ∈ l → x0 ≤ x s) →
  (∀ s, s ∈ l → (x s - x0) * (x s - x0) < D) →
  (∀ s, s ∈ l → y0 ≤ y s ∧ (y s - y0) * (y s - y0) < D) →
  (∀ s t, s ∈ l → t ∈ l → s ≠ t → Dist.le (Sqrt D) (dist s t)) →
  (length l ≤ 4)%nat.
Proof.
  intros Hnd Hside Hx Hy Hfar.
  assert (NoDup (cell D x0 y0 <$> l)) as Hcells.
  { apply NoDup_fmap_2_strong; [|done]. intros s t Hs Ht Hcell.
    destruct (decide (s = t)) as [|Hne]; [done|]. exfalso.
    destruct (Hy s Hs) as [??], (Hy t Ht) as [??].
    eapply (cell_inj D x0 y0 s t); eauto.
    destruct Hside as [Hs'|Hs']; [left|right]; auto. }
  rewrite <-(length_fmap (cell D x0 y0)).
  apply (submseteq_length _ [(true, true); (true, false); (false, true); (false, false)]).
  apply NoDup_submseteq; [done|]. clear. intros [[] []] _; rewrite !elem_of_cons; auto 6.
Qed.

Lemma elem_of_strip py midx d p :
  p ∈ strip_of py midx d ↔ Dist.zlt (Z.abs (x p - midx)) d ∧ p ∈ py.
Proof. unfold strip_of. by rewrite list_elem_of_filter. Qed.

Lemma strip_sublist py midx d : strip_of py midx d `sublist_of` py.
Proof. apply sublist_filter. Qed.

Lemma zlt_abs_sqrt k D : Dist.zlt (Z.abs k) (Sqrt D) ↔ k * k < D.
Proof. cbn [Dist.zlt]. by rewrite Z.abs_square. Qed.

(** A pair across the split line that is closer than [d] lies in the strip. *)
Lemma cross_in_strip p r midx d :
  x p ≤ midx → midx ≤ x r → Dist.lt (dist p r) d →
  Dist.zlt (Z.abs (x p - midx)) d ∧ Dist.zlt (Z.abs (x r - midx)) d.
Proof.
  intros Hp Hr Hlt. destruct d as [D|]; [|done].
  rewrite !zlt_abs_sqrt. rewrite dist_sqrt in Hlt. cbn [Dist.lt] in Hlt.
  pose proof (Z.square_nonneg (y p - y r)). split; nia.
Qed.

Lemma Qx_le_midx px q p :
  StronglySorted le_xy px → last (Qx_of px) = Some q → p ∈ Qx_of px → x p ≤ x q.
Proof.
  intros Hpx Hq Hp. rewrite <-(Qx_Rx_app px) in Hpx.
  apply StronglySorted_app_1_l in Hpx.
  apply last_Some in Hq as [l' Hl']. rewrite Hl' in Hpx, Hp.
  apply elem_of_app in Hp as [Hp | ->%list_elem_of_singleton]; [|done].
  apply le_xy_x. eapply StronglySorted_app_1_elem_of; [done..|left].
Qed.

Lemma midx_le_Rx px q r :
  StronglySorted le_xy px → last (Qx_of px) = Some q → r ∈ Rx_of px → x q ≤ x r.
Proof.
  intros Hpx Hq Hr. rewrite <-(Qx_Rx_app px) in Hpx.
  apply le_xy_x. eapply StronglySorted_app_1_elem_of; [done| |done].
  by apply last_Some_elem_of.
Qed.

(** ** The strip scan *)

#[local] Open Scope nat_scope.

Lemma strip_scan_le_start strip start :
  Dist.le (strip_scan strip start).1 start.1.
Proof. rewrite strip_scan_scan. apply scan_le_start. Qed.

Lemma strip_scan_le_window strip start i j :
  i < j < length strip → j < i + 8 →
  Dist.le (strip_scan strip start).1 (dist (strip !!! i) (strip !!! j)).
Proof.
  intros Hij Hw. rewrite strip_scan_scan.
  apply (scan_le_visited strip start _ (i, j)). by apply elem_of_window_pairs.
Qed.

Lemma strip_scan_cases strip start :
  strip_scan strip start = start
  ∨ ∃ i j, (i < j < length strip ∧ j < i + 8)
      ∧ strip_scan strip start
        = (dist (strip !!! i) (strip !!! j), (strip !!! i, strip !!! j))
      ∧ Dist.lt (dist (strip !!! i) (strip !!! j)) start.1.
Proof.
  rewrite strip_scan_scan.
  destruct (scan_start_or_visited strip start (window_pairs (length strip)))
    as [?|([i j] & Hk%elem_of_window_pairs & Heq & Hlt)]; [by left|].
  right. by exists i, j.
Qed.

Lemma combine_cases l r : combine l r = l ∨ combine l r = r.
Proof. unfold combine. case_decide; auto. Qed.

Lemma combine_le_l l r : Dist.le (combine l r).1 l.1.
Proof. unfold combine. case_decide; auto using le_refl, lt_le, not_le_lt. Qed.

Lemma combine_le_r l r : Dist.le (combine l r).1 r.1.
Proof. unfold combine. case_decide; auto using le_refl. Qed.

Lemma scan_nonneg l start ps :
  Dist.le (Sqrt 0) start.1 → Dist.le (Sqrt 0) (scan l start ps).1.
Proof.
  intros Hstart.
  destruct (scan_start_or_visited l start ps) as [->|(k & _ & -> & _)];
    [done | apply dist_nonneg].
Qed.

(** Every distance returned is non-negative. *)
Lemma rec_nonneg fuel px py res :
  _closest_pair_rec fuel px py = Ok res → Dist.le (Sqrt 0) res.1.
Proof.
  revert px py res. induction fuel as [|fuel IH]; intros px py res; [done|].
  destruct (decide (length px ≤ 3)) as [Hn|Hn].
  - rewrite rec_base by done. destruct px as [|p0 px]; [done|].
    rewrite (brute_force_scan _ p0) by done. intros [= <-]. by apply scan_nonneg.
  - intros (q & l & r & Hq & Hl%IH & Hr%IH & ->)%rec_step_inv; [|lia].
    destruct (strip_scan_cases (strip_of py (x q) (combine l r).1) (combine l r))
      as [->|(i & j & _ & -> & _)]; [|apply dist_nonneg].
    by destruct (combine_cases l r) as [-> | ->].
Qed.

(** Two equal entries of a y-sorted list have equal neighbours. *)
Lemma sorted_dup_adjacent (S : list Point) v k :
  StronglySorted le_yx S → S ≡ₚ v :: v :: k →
  ∃ i, i + 1 < length S ∧ S !!! i = v ∧ S !!! (i + 1) = v.
Proof.
  intros Hs HS.
  assert (∃ i j, i < j < length S ∧ S !!! i = v ∧ S !!! j = v) as (i & j & Hij & Hi & Hj).
  { destruct (Permutation_two_lookup _ _ _ _ HS) as (i & j & Hne & Hi & Hj & Hvi & Hvj).
    destruct (decide (i < j)); [exists i, j | exists j, i]; split_and!; (done || lia). }
  exists i. split_and!; [lia | done |].
  destruct (decide (i + 1 = j)) as [->|Hne]; [done|].
  apply (anti_symm le_yx).
  - rewrite <-Hj. apply StronglySorted_lookup; [done | lia].
  - rewrite <-Hi. apply StronglySorted_lookup; [done | lia].
Qed.

Lemma far_apart_zero l : far_apart (Sqrt 0) l.
Proof.
  induction l as [|p l IH]; simpl; [done|]. split; [|done].
  apply Forall_forall. intros q _. apply dist_nonneg.
Qed.

Lemma attained_sqrt d l : attained d l → ∃ D, d = Sqrt D.
Proof. intros (p & q & l' & _ & ->). rewrite dist_sqrt. eauto. Qed.

(** The bound behind the seven comparisons: in a y-sorted strip of
    half-width √D whose left and right points are each pairwise at least √D
    apart, two points closer than √D are fewer than eight positions apart. *)
Lemma strip_window (S Qx Rx : list Point) (D midx : Z) i j :
  StronglySorted le_yx S → NoDup S →
  (∀ s, s ∈ S → (x s - midx) * (x s - midx) < D)%Z →
  (∀ s, s ∈ S → s ∈ Qx ∨ s ∈ Rx) →
  (∀ s, s ∈ Qx → x s ≤ midx)%Z → (∀ s, s ∈ Rx → midx ≤ x s)%Z →
  far_apart (Sqrt D) Qx → far_apart (Sqrt D) Rx →
  i < j < length S → Dist.lt (dist (S !!! i) (S !!! j)) (Sqrt D) →
  j < i + 8.
Proof.
  intros Hsorted Hnd Hx Hin HQ HR HfQ HfR Hij Hlt.
  destruct (decide (j < i + 8)) as [|Hfar]; [done|]. exfalso.
  set (seg := take 9 (drop i S)).
  assert (length seg = 9) as Hlen.
  { unfold seg. rewrite length_take, length_drop. lia. }
  assert (seg ⊆ S) as Hsub.
  { apply sublist_subseteq. unfold seg.
    etrans; [apply sublist_take | apply sublist_drop]. }
  assert (NoDup seg) as Hndseg.
  { apply (sublist_NoDup seg S); [exact Hnd|]. unfold seg.
    etrans; [apply sublist_take | apply sublist_drop]. }
  assert (∀ s, s ∈ seg →
    (y (S !!! i) ≤ y s ∧ (y s - y (S !!! i)) * (y s - y (S !!! i)) < D)%Z) as Hy.
  { intros s (k & Hk & <-)%list_elem_of_lookup_total_1. rewrite Hlen in Hk.
    unfold seg. rewrite lookup_total_take_lt, lookup_total_drop by lia.
    assert (y (S !!! i) ≤ y (S !!! (i + k)%nat) ≤ y (S !!! j))%Z as Hbetween.
    { split.
      - destruct k as [|k]; [rewrite Nat.add_0_r; lia|].
        apply le_yx_y, StronglySorted_lookup; [done | lia].
      - destruct (decide (i + k = j)) as [->|]; [lia|].
        apply le_yx_y, StronglySorted_lookup; [done | lia]. }
    rewrite dist_sqrt in Hlt. cbn [Dist.lt] in Hlt.
    pose proof (Z.square_nonneg (x (S !!! i) - x (S !!! j))). nia. }
  pose proof (Permutation_length (filter_app_complement (λ s, s ∈ Qx) seg)) as Hsplit.
  rewrite length_app, Hlen in Hsplit.
  assert (length (filter (λ s, s ∈ Qx) seg) ≤ 4).
  { apply (box_four _ D midx (y (S !!! i))).
    - by apply NoDup_filter.
    - left. intros s [Hs _]%list_elem_of_filter. auto.
    - intros s [_ Hs]%list_elem_of_filter. auto.
    - intros s [_ Hs]%list_elem_of_filter. auto.
    - intros s t [Hs _]%list_elem_of_filter [Ht _]%list_elem_of_filter Hne.
      by apply (far_apart_elem_of _ Qx). }
  assert (∀ s, s ∈ filter (λ s, s ∉ Qx) seg → s ∈ Rx) as HinR.
  { intros s [Hs Hseg]%list_elem_of_filter. destruct (Hin s); auto. done. }
  assert (length (filter (λ s, s ∉ Qx) seg) ≤ 4).
  { apply (box_four _ D midx (y (S !!! i))).
    - by apply NoDup_filter.
    - right. auto.
    - intros s [_ Hs]%list_elem_of_filter. auto.
    - intros s [_ Hs]%list_elem_of_filter. auto.
    - intros s t Hs Ht Hne. apply (far_apart_elem_of _ Rx); auto. }
  lia.
Qed.

(** ** Correctness of the merge step *)

(** A point value on both sides of the split: the scan finds two equal
    neighbours in the strip, or the provisional best is zero already. *)
Lemma merge_overlap px py q l r v :
  StronglySorted le_xy px → StronglySorted le_yx py → py ≡ₚ px →
  last (Qx_of px) = Some q → v ∈ Qx_of px → v ∈ Rx_of px →
  Dist.le (Sqrt 0) l.1 → Dist.le (Sqrt 0) r.1 →
  min_pairwise px (strip_scan (strip_of py (x q) (combine l r).1) (combine l r)).1.
Proof.
  intros Hpx Hpy Hperm Hq HvQ HvR Hl Hr.
  set (best := combine l r). set (S := strip_of py (x q) best.1).
  assert (Dist.le (Sqrt 0) best.1) as Hbest.
  { unfold best. by destruct (combine_cases l r) as [-> | ->]. }
  assert (∃ k, px ≡ₚ v :: v :: k) as [k Hk].
  { apply list_elem_of_split in HvQ as (l1 & l2 & HQ).
    apply list_elem_of_split in HvR as (l3 & l4 & HR).
    exists (l1 ++ l2 ++ l3 ++ l4). rewrite <-(Qx_Rx_app px), HQ, HR.
    rewrite <-!Permutation_middle. apply perm_skip.
    rewrite <-app_comm_cons. apply perm_skip. by rewrite <-!app_assoc. }
  assert (x v = x q) as Hxv.
  { pose proof (Qx_le_midx px q v Hpx Hq HvQ).
    pose proof (midx_le_Rx px q v Hpx Hq HvR). lia. }
  enough ((strip_scan S best).1 = Sqrt 0) as ->.
  { apply min_pairwise_alt. split; [apply far_apart_zero|].
    exists v, v, k. by rewrite dist_self. }
  apply le_antisym; [|rewrite strip_scan_scan; by apply scan_nonneg].
  destruct (decide (best.1 = Sqrt 0)) as [Hz|Hnz].
  { rewrite <-Hz. apply strip_scan_le_start. }
  assert (Dist.zlt (Z.abs (x v - x q)) best.1) as Hin.
  { rewrite Hxv, Z.sub_diag. destruct best.1 as [D|]; [|done]. simpl in *.
    assert (D ≠ 0)%Z by congruence. lia. }
  assert (∃ k', S ≡ₚ v :: v :: k') as [k' Hk'].
  { exists (strip_of k (x q) best.1). unfold S, strip_of.
    by rewrite Hperm, Hk, !filter_cons_True. }
  destruct (sorted_dup_adjacent S v k') as (i & Hi & Hv1 & Hv2); [|done|].
  { eapply StronglySorted_sublist; [apply strip_sublist | done]. }
  rewrite <-(dist_self v), <-Hv1 at 1. rewrite <-Hv2.
  apply strip_scan_le_window; lia.
Qed.

(** No point value on both sides: the classical argument. *)
Lemma merge_disjoint px py q l r :
  StronglySorted le_xy px → StronglySorted le_yx py → py ≡ₚ px →
  last (Qx_of px) = Some q → (∀ p, p ∈ Qx_of px → p ∉ Rx_of px) →
  min_pairwise (Qx_of px) l.1 → min_pairwise (Rx_of px) r.1 →
  min_pairwise px (strip_scan (strip_of py (x q) (combine l r).1) (combine l r)).1.
Proof.
  intros Hpx Hpy Hperm Hq Hdisj [HfQ HaQ]%min_pairwise_alt [HfR HaR]%min_pairwise_alt.
  set (best := combine l r). set (S := strip_of py (x q) best.1).
  pose proof (strip_scan_le_start S best) as Hle.
  pose proof (combine_le_l l r) as Hbl. pose proof (combine_le_r l r) as Hbr.
  fold best in Hbl, Hbr.
  assert (attained best.1 px) as Hbest.
  { rewrite <-(Qx_Rx_app px). unfold best.
    destruct (combine_cases l r) as [-> | ->];
      [by apply attained_app_l | by apply attained_app_r]. }
  apply min_pairwise_alt. split.
  - rewrite <-(Qx_Rx_app px). apply far_apart_app. split_and!.
    + eapply far_apart_mono; [|exact HfQ]. by etrans.
    + eapply far_apart_mono; [|exact HfR]. by etrans.
    + intros p p' Hp Hp'.
      destruct (decide (Dist.lt (dist p p') best.1)) as [Hlt|Hge];
        [|eapply le_trans; [exact Hle | by apply not_lt_le]].
      destruct (attained_sqrt _ _ Hbest) as [D HD]. rewrite HD in *.
      assert (0 < D)%Z as HDpos.
      { pose proof (dist_nonneg p p') as H0. rewrite dist_sqrt in H0, Hlt.
        cbn [Dist.le Dist.lt] in H0, Hlt. lia. }
      pose proof (Qx_le_midx px q p Hpx Hq Hp) as Hxp.
      pose proof (midx_le_Rx px q p' Hpx Hq Hp') as Hxp'.
      destruct (cross_in_strip p p' (x q) (Sqrt D) Hxp Hxp' Hlt) as [Hsp Hsp'].
      assert (p ∈ px ∧ p' ∈ px) as [Hpin Hpin'].
      { rewrite <-(Qx_Rx_app px), !elem_of_app. auto. }
      assert (p ∈ S ∧ p' ∈ S) as [HpS Hp'S].
      { unfold S. rewrite HD, !elem_of_strip, Hperm. auto. }
      assert (NoDup S) as HndS.
      { apply (sublist_NoDup S py); [|apply strip_sublist].
        rewrite Hperm, <-(Qx_Rx_app px). apply NoDup_app. split_and!; [|done|].
        - apply (far_apart_NoDup (Sqrt D)); [done|].
          by eapply far_apart_mono; [|exact HfQ].
        - apply (far_apart_NoDup (Sqrt D)); [done|].
          by eapply far_apart_mono; [|exact HfR]. }
      apply list_elem_of_lookup_total_1 in HpS as (i & Hi & Hpi).
      apply list_elem_of_lookup_total_1 in Hp'S as (j & Hj & Hpj).
      assert (i ≠ j) as Hij.
      { intros ->. apply (Hdisj p Hp). by rewrite <-Hpi, Hpj. }
      assert (∀ a b, a < b < length S →
        Dist.lt (dist (S !!! a) (S !!! b)) (Sqrt D) → b < a + 8) as Hwin.
      { intros a b. apply (strip_window S (Qx_of px) (Rx_of px) D (x q)).
        - eapply StronglySorted_sublist; [apply strip_sublist | done].
        - done.
        - intros s Hs. unfold S in Hs. rewrite HD in Hs.
          apply elem_of_strip in Hs as [Hs _]. by apply zlt_abs_sqrt.
        - intros s Hs. unfold S in Hs. apply elem_of_strip in Hs as [_ Hs].
          rewrite Hperm, <-(Qx_Rx_app px) in Hs. by apply elem_of_app.
        - intros s. by apply Qx_le_midx.
        - intros s. by apply midx_le_Rx.
        - by eapply far_apart_mono; [|exact HfQ].
        - by eapply far_apart_mono; [|exact HfR]. }
      destruct (decide (i < j)).
      * rewrite <-Hpi, <-Hpj. apply strip_scan_le_window; [lia|].
        apply Hwin; [lia|]. by rewrite Hpi, Hpj.
      * rewrite dist_sym, <-Hpi, <-Hpj. apply strip_scan_le_window; [lia|].
        apply Hwin; [lia|]. by rewrite Hpi, Hpj, dist_sym.
  - destruct (strip_scan_cases S best) as [-> | (i & j & [Hij _] & -> & _)]; [done|].
    rewrite <-Hperm. apply (attained_submseteq _ S).
    + apply sublist_submseteq, strip_sublist.
    + by apply attained_lookup.
Qed.

(** On x- and y-sorted views of the same points, the recursion returns the
    least pairwise distance. *)
Lemma rec_min_pairwise fuel px py res :
  StronglySorted le_xy px → StronglySorted le_yx py → py ≡ₚ px →
  2 ≤ length px →
  _closest_pair_rec fuel px py = Ok res → min_pairwise px res.1.
Proof.
  revert px py res. induction fuel as [|fuel IH]; intros px py res Hpx Hpy Hperm Hlen;
    [done|].
  destruct (decide (length px ≤ 3)) as [Hn|Hn].
  { rewrite rec_base by done. intros Hbf.
    destruct (brute_force_min px Hlen) as (d & pr & Hbf' & Hmin).
    rewrite Hbf' in Hbf. by injection Hbf as <-. }
  assert (3 < length px) as Hn' by lia.
  intros (q & l & r & Hq & Hl & Hr & ->)%rec_step_inv; [|done].
  destruct (decide (Forall (λ p, p ∉ Rx_of px) (Qx_of px))) as [Hdisj|Hover].
  - rewrite Forall_forall in Hdisj.
    pose proof (half_bounds _ Hn') as [H1 H2].
    assert (StronglySorted le_xy (Qx_of px) ∧ StronglySorted le_xy (Rx_of px))
      as [HQ HR].
    { rewrite <-(Qx_Rx_app px) in Hpx. by apply StronglySorted_app in Hpx as (_ & ? & ?). }
    apply merge_disjoint; try done.
    + apply (IH (Qx_of px) (Qy_of px py)); [done | | | | done].
      * eapply StronglySorted_sublist; [apply Qy_sublist | done].
      * by apply Qy_Permutation.
      * rewrite length_Qx. lia.
    + apply (IH (Rx_of px) (Ry_of px py)); [done | | | | done].
      * eapply StronglySorted_sublist; [apply Ry_sublist | done].
      * by apply Ry_Permutation.
      * rewrite length_Rx. lia.
  - apply not_Forall_Exists in Hover; [|apply _].
    apply Exists_exists in Hover as (v & HvQ & HvR). apply dec_stable in HvR.
    apply (merge_overlap px py q l r v); try done.
    + by apply rec_nonneg in Hl.
    + by apply rec_nonneg in Hr.
Qed.

(** ** Invariants of the call tree *)


Lemma root_clean points : NoDup points → call_clean (root points).
Proof.
  intros Hnd. unfold call_clean, root. cbn [fst snd]. split.
  - by rewrite sorted_xy_Permutation.
  - by rewrite sorted_yx_Permutation, sorted_xy_Permutation.
Qed.


Lemma subcall_clean c c' : subcall c c' → call_clean c → call_clean c'.
Proof.
  unfold call_clean. intros [px py Hn | px py Hn] [Hnd Hperm]; cbn [fst snd] in *;
    rewrite <-(Qx_Rx_app px) in Hnd; apply NoDup_app in Hnd as (HQ & Hdisj & HR).
  - split; [done | by apply Qy_Permutation].
  - split; [done | by apply Ry_Permutation].
Qed.


Lemma calls_clean c c' : calls c c' → call_clean c → call_clean c'.
Proof. induction 1; eauto using subcall_clean. Qed.


Lemma min_pairwise_NoDup_pos l d : NoDup l → min_pairwise l d → d ≠ Sqrt 0.
Proof.
  intros Hnd [_ (i & j & Hij & ->)] Hz. apply dist_zero in Hz.
  assert (l !! i = Some (l !!! i)) as Hi by (apply list_lookup_lookup_total_lt; lia).
  assert (l !! j = Some (l !!! j)) as Hj by (apply list_lookup_lookup_total_lt; lia).
  rewrite <-Hz in Hj. pose proof (NoDup_lookup l i j _ Hnd Hi Hj). lia.
Qed.

(** ** The top-level function *)

Lemma closest_pair_short points :
  length points < 2 → closest_pair points = Raise ValueError.
Proof. intros Hlen. unfold closest_pair. by rewrite decide_True. Qed.

Lemma closest_pair_rec points :
  2 ≤ length points →
  closest_pair points
  = _closest_pair_rec (length points) (sorted le_xy points) (sorted le_yx points).
Proof. intros Hlen. unfold closest_pair. rewrite decide_False by lia. done. Qed.

Lemma closest_pair_total points :
  2 ≤ length points → ∃ res, closest_pair points = Ok res.
Proof.
  intros Hlen. rewrite closest_pair_rec by done.
  pose proof (Permutation_length (sorted_xy_Permutation points)) as Hpx.
  apply rec_fuel_enough.
  - intros Hnil. rewrite Hnil in Hpx. cbn [length] in Hpx. lia.
  - rewrite Hpx. apply log2_succ_le. lia.
Qed.

Lemma closest_pair_min_pairwise points d pr :
  2 ≤ length points → closest_pair points = Ok (d, pr) → min_pairwise points d.
Proof.
  intros Hlen Hcp. rewrite closest_pair_rec in Hcp by done.
  apply rec_min_pairwise in Hcp.
  - by rewrite sorted_xy_Permutation in Hcp.
  - apply sorted_xy_StronglySorted.
  - apply sorted_yx_StronglySorted.
  - by rewrite sorted_yx_Permutation, sorted_xy_Permutation.
  - by rewrite sorted_xy_Permutation.
Qed.

(** C1. For every list of at least two points, [closest_pair] returns the
    least pairwise Euclidean distance of the input, which is the distance the
    exhaustive search [brute_force] returns on the whole input; when all the
    points are equal this distance is 0.  (Exact arithmetic: distances are
    compared as reals, without rounding.) *)
Theorem closest_pair_min_distance (points : list Point) :
  2 ≤ length points →
  ∃ d pr, closest_pair points = Ok (d, pr)
    ∧ min_pairwise points d
    ∧ (∃ pr', brute_force points = Ok (d, pr'))
    ∧ ((∀ p q, p ∈ points → q ∈ points → p = q) → d = Sqrt 0).
Proof.
  intros Hlen. destruct (closest_pair_total points Hlen) as [[d pr] Hcp].
  pose proof (closest_pair_min_pairwise _ _ _ Hlen Hcp) as Hmin.
  exists d, pr. split_and!; [done..| |].
  - destruct (brute_force_min points Hlen) as (d' & pr' & Hbf & Hmin').
    exists pr'. by rewrite (min_pairwise_unique _ _ _ Hmin Hmin').
  - intros Hsame. destruct Hmin as [_ (i & j & Hij & ->)].
    rewrite (Hsame (points !!! i) (points !!! j)); [apply dist_self|..];
      apply list_elem_of_lookup_total_2; lia.
Qed.

Lemma closest_pair_min_distance_witness :
  2 ≤ length example1
  ∧ ∃ d pr, closest_pair example1 = Ok (d, pr)
      ∧ min_pairwise example1 d
      ∧ (∃ pr', brute_force example1 = Ok (d, pr'))
      ∧ ((∀ p q, p ∈ example1 → q ∈ example1 → p = q) → d = Sqrt 0).
Proof.
  split; [simpl; lia|]. apply (closest_pair_min_distance example1). simpl. lia.
Defined.

(** C4. [closest_pair] raises [ValueError] (the spec's InvalidInput) exactly
    when the input has fewer than two points, in particular on the empty
    list and on every one-point list, and returns a result without error on
    every input of at least two points. *)
Theorem closest_pair_invalid_input :
  closest_pair [] = Raise ValueError
  ∧ (∀ p, closest_pair [p] = Raise ValueError)
  ∧ (∀ points, closest_pair points = Raise ValueError ↔ length points < 2)
  ∧ (∀ points, 2 ≤ length points → ∃ res, closest_pair points = Ok res).
Proof.
  split_and!; [done | done | | exact closest_pair_total].
  intros points. split; [|apply closest_pair_short].
  intros Herr. destruct (decide (length points < 2)) as [|Hge]; [done|].
  destruct (closest_pair_total points) as [res Hres]; [lia|]. congruence.
Qed.

Lemma closest_pair_invalid_input_witness :
  (closest_pair [mkPoint 3 4] = Raise ValueError ↔ length [mkPoint 3 4] < 2)
  ∧ 2 ≤ length example1 ∧ ∃ res, closest_pair example1 = Ok res.
Proof.
  destruct closest_pair_invalid_input as (_ & _ & Hiff & Hok).
  split_and!; [apply Hiff | simpl; lia | apply Hok; simpl; lia].
Defined.



(** C9 as the spec has it fails: the distance returned for the ten points is
    not √2. *)
Lemma example1_not_sqrt2 : ¬ ∃ pr, closest_pair example1 = Ok (Sqrt 2, pr).
Proof. intros [pr Hpr]. vm_compute in Hpr. discriminate. Qed.

(** C9, amended.  On the ten points of the first example set
    [closest_pair] returns the distance 1 = √1, with the pair (3,4), (4,4);
    1 is the least pairwise distance of the set, and √2, the distance from
    (0,0) to (1,1), is larger. *)
Theorem example1_closest_pair :
  closest_pair example1 = Ok (Sqrt 1, (mkPoint 3 4, mkPoint 4 4))
  ∧ min_pairwise example1 (Sqrt 1)
  ∧ dist (mkPoint 0 0) (mkPoint 1 1) = Sqrt 2
  ∧ Dist.lt (Sqrt 1) (Sqrt 2).
Proof.
  split_and!; [by vm_compute | | done | done].
  apply (closest_pair_min_pairwise example1 _ (mkPoint 3 4, mkPoint 4 4));
    [simpl; lia | by vm_compute].
Qed.



(** ** The partition of [py], as the claims have it *)

(** C2 as the spec has it fails: on four equal points the first call splits
    [px] into two points and two points, but sends all four entries of [py]
    to the left and none to the right. *)
Lemma y_partition_not_by_halves :
  let px := sorted le_xy four_equal in
  let py := sorted le_yx four_equal in
  (3 < length px
   ∧ Qx_of px = [mkPoint 0 0; mkPoint 0 0] ∧ Rx_of px = [mkPoint 0 0; mkPoint 0 0]
   ∧ Qy_of px py = four_equal ∧ Ry_of px py = [])
  ∧ ¬ (Qy_of px py ≡ₚ Qx_of px ∧ Ry_of px py ≡ₚ Rx_of px).
Proof.
  split.
  - split_and!; [vm_compute; lia | by vm_compute..].
  - intros [H1%Permutation_length _]. vm_compute in H1. discriminate.
Qed.

(** C2, amended.  In every call on more than three points, [Qy] is the
    sub-sequence of [py], in the order of [py], of the points whose value
    occurs in the left half [Qx], and [Ry] the sub-sequence of those whose
    value does not; together they are a rearrangement of [py].  Membership is
    by coordinate value (the [set] of [Qx]), so equal points all go left.  When
    [py] holds the points of [px] and no value occurs in both halves, [Qy]
    and [Ry] hold exactly the points of [Qx] and [Rx]; this is so in every
    call when the input has no repeated point. *)
Theorem y_partition (px py : list Point) :
  (∀ fuel, 3 < length px →
     _closest_pair_rec (S fuel) px py =
       q ← index_last (Qx_of px);
       l ← _closest_pair_rec fuel (Qx_of px) (Qy_of px py);
       r ← _closest_pair_rec fuel (Rx_of px) (Ry_of px py);
       Ok (strip_scan (strip_of py (x q) (combine l r).1) (combine l r)))
  ∧ Qy_of px py `sublist_of` py ∧ Ry_of px py `sublist_of` py
  ∧ (∀ p, p ∈ Qy_of px py ↔ p ∈ py ∧ p ∈ Qx_of px)
  ∧ (∀ p, p ∈ Ry_of px py ↔ p ∈ py ∧ p ∉ Qx_of px)
  ∧ Qy_of px py ++ Ry_of px py ≡ₚ py
  ∧ (py ≡ₚ px → (∀ p, p ∈ Qx_of px → p ∉ Rx_of px) →
       Qy_of px py ≡ₚ Qx_of px ∧ Ry_of px py ≡ₚ Rx_of px)
  ∧ (∀ points, NoDup points → calls (root points) (px, py) →
       py ≡ₚ px ∧ Qy_of px py ≡ₚ Qx_of px ∧ Ry_of px py ≡ₚ Rx_of px).
Proof.
  split_and!.
  - intros fuel. apply rec_step.
  - apply Qy_sublist.
  - apply Ry_sublist.
  - apply elem_of_Qy.
  - apply elem_of_Ry.
  - apply Qy_Ry_Permutation.
  - intros Hperm Hdisj. split; [by apply Qy_Permutation | by apply Ry_Permutation].
  - intros points Hnd Hcalls.
    apply calls_clean in Hcalls as [Hndpx Hperm]; [|by apply root_clean].
    cbn [fst snd] in *. rewrite <-(Qx_Rx_app px) in Hndpx.
    apply NoDup_app in Hndpx as (_ & Hdisj & _).
    split_and!; [done | by apply Qy_Permutation | by apply Ry_Permutation].
Qed.

Lemma y_partition_witness :
  NoDup example1
  ∧ calls (root example1) (root example1)
  ∧ Qy_of (sorted le_xy example1) (sorted le_yx example1)
    ≡ₚ Qx_of (sorted le_xy example1).
Proof.
  assert (NoDup example1) as Hnd by (by apply (bool_decide_unpack _); vm_compute).
  assert (calls (root example1) (root example1)) as Hcalls by apply rtc_refl.
  split_and!; [done | done |].
  destruct (y_partition (sorted le_xy example1) (sorted le_yx example1))
    as (_ & _ & _ & _ & _ & _ & _ & Hclean).
  by destruct (Hclean example1 Hnd Hcalls) as (_ & HQ & _).
Defined.

(** ** The pair a subproblem returns *)




(** ** The strip and its scan, as the claims have them *)

Lemma length_range a b : length (range a b) = b - a.
Proof. unfold range. apply length_seq. Qed.

(** C5. In every call on more than three points, with [midx] the
    x-coordinate of the last point of the left half and [best] the
    provisional result of step 5: the strip is the list of the points of the
    whole [py] with [abs(p.x - midx) < best], in the order of [py] (so
    y-sorted when [py] is); the scan compares the strip point of index [i]
    with those of indices [i+1 .. min(i+7, m-1)] only, at most seven of them;
    and the distance and pair change only at a pair strictly closer than the
    current distance. *)
Theorem strip_scan_step fuel px py res :
  3 < length px → _closest_pair_rec (S fuel) px py = Ok res →
  ∃ q l r, last (Qx_of px) = Some q
    ∧ _closest_pair_rec fuel (Qx_of px) (Qy_of px py) = Ok l
    ∧ _closest_pair_rec fuel (Rx_of px) (Ry_of px py) = Ok r
    ∧ let best := combine l r in
      let strip := strip_of py (x q) best.1 in
      let m := length strip in
      strip = filter (λ p, Dist.zlt (Z.abs (x p - x q)) best.1) py
      ∧ (∀ p, p ∈ strip ↔ p ∈ py ∧ Dist.zlt (Z.abs (x p - x q)) best.1)
      ∧ strip `sublist_of` py
      ∧ (StronglySorted le_yx py → StronglySorted le_yx strip)
      ∧ res = foldl (λ acc i,
                foldl (improve strip i) acc (range (i + 1) (min (i + 8) m)))
                best (range 0 m)
      ∧ res = scan strip best (window_pairs m)
      ∧ (∀ i j, (i, j) ∈ window_pairs m ↔ i < m ∧ i + 1 ≤ j ≤ min (i + 7) (m - 1))
      ∧ (∀ i, length (range (i + 1) (min (i + 8) m)) ≤ 7)
      ∧ (∀ acc i j,
          improve strip i acc j =
            if decide (Dist.lt (dist (strip !!! i) (strip !!! j)) acc.1)
            then (dist (strip !!! i) (strip !!! j), (strip !!! i, strip !!! j))
            else acc)
      ∧ scan_outcome strip best (window_pairs m) res.
Proof.
  intros Hn (q & l & r & Hq & Hl & Hr & ->)%rec_step_inv; [|done].
  exists q, l, r. split_and!; [done..|]. cbv zeta. split_and!.
  - done.
  - intros p. rewrite elem_of_strip. tauto.
  - apply strip_sublist.
  - intros Hpy. eapply StronglySorted_sublist; [apply strip_sublist | done].
  - done.
  - apply strip_scan_scan.
  - intros i j. rewrite elem_of_window_pairs. lia.
  - intros i. rewrite length_range. lia.
  - by intros [d pr] i j.
  - rewrite strip_scan_scan. apply scan_spec.
Qed.

Lemma strip_scan_step_witness :
  3 < length (sorted le_xy example1)
  ∧ _closest_pair_rec 4 (sorted le_xy example1) (sorted le_yx example1)
    = Ok (Sqrt 1, (mkPoint 3 4, mkPoint 4 4))
  ∧ ∃ q l r, last (Qx_of (sorted le_xy example1)) = Some q
      ∧ _closest_pair_rec 3 (Qx_of (sorted le_xy example1))
          (Qy_of (sorted le_xy example1) (sorted le_yx example1)) = Ok l
      ∧ _closest_pair_rec 3 (Rx_of (sorted le_xy example1))
          (Ry_of (sorted le_xy example1) (sorted le_yx example1)) = Ok r
      ∧ (Sqrt 1, (mkPoint 3 4, mkPoint 4 4))
        = scan (strip_of (sorted le_yx example1) (x q) (combine l r).1) (combine l r)
            (window_pairs
               (length (strip_of (sorted le_yx example1) (x q) (combine l r).1))).
Proof.
  assert (3 < length (sorted le_xy example1)) as Hn by (vm_compute; lia).
  assert (_closest_pair_rec 4 (sorted le_xy example1) (sorted le_yx example1)
          = Ok (Sqrt 1, (mkPoint 3 4, mkPoint 4 4))) as Hrec by (by vm_compute).
  split_and!; [done..|].
  destruct (strip_scan_step 3 _ _ _ Hn Hrec) as (q & l & r & Hq & Hl & Hr & Hstrip).
  exists q, l, r. split_and!; [done..|]. apply Hstrip.
Defined.

(** ** The exhaustive search and the tie-breaks, as the claims have them *)



(** ** Termination, depth and number of distance evaluations *)










(** ** Denotation of distances in the reals *)

Section Denotation.
#[local] Open Scope Z_scope.



Lemma lt_sound s t :
  0 ≤ s → 0 ≤ t → Dist.lt (Sqrt s) (Sqrt t) ↔ (to_R s < to_R t)%R.
Proof.
  intros Hs Ht. unfold to_R. cbn [Dist.lt]. split.
  - intros Hlt. apply sqrt_lt_1_alt. split; [by apply IZR_le | by apply IZR_lt].
  - intros Hlt%sqrt_lt_0_alt. by apply lt_IZR.
Qed.

Lemma le_sound s t :
  0 ≤ s → 0 ≤ t → Dist.le (Sqrt s) (Sqrt t) ↔ (to_R s <= to_R t)%R.
Proof.
  intros Hs Ht. unfold to_R. cbn [Dist.le]. split.
  - intros Hle. apply sqrt_le_1_alt. by apply IZR_le.
  - intros Hle%sqrt_le_0; [by apply le_IZR | by apply IZR_le..].
Qed.

Lemma zlt_sound k s :
  0 ≤ k → 0 ≤ s → Dist.zlt k (Sqrt s) ↔ (IZR k < to_R s)%R.
Proof.
  intros Hk Hs. rewrite <-(sqrt_square (IZR k)) by (by apply IZR_le).
  rewrite <-mult_IZR. apply (lt_sound (k * k) s); [nia | done].
Qed.
End Denotation.

(** ** Further properties of the distance and of the exhaustive search *)

#[local] Open Scope nat_scope.

Lemma lookup_two_Permutation (l : list Point) i j :
  i < j < length l → ∃ k, l ≡ₚ l !!! i :: l !!! j :: k.
Proof.
  intros Hij. exists (take i l ++ drop (S i) (take j l) ++ drop (S j) l).
  assert (Hj : l !! j = Some (l !!! j)) by (apply list_lookup_lookup_total_lt; lia).
  assert (Hi : take j l !! i = Some (l !!! i)).
  { rewrite lookup_take_lt by lia. apply list_lookup_lookup_total_lt. lia. }
  rewrite <-(take_drop_middle l j _ Hj) at 1.
  rewrite <-(take_drop_middle (take j l) i _ Hi) at 1.
  rewrite take_take, Nat.min_l by lia.
  rewrite <-!app_assoc, <-!app_comm_cons.
  rewrite <-Permutation_middle. apply perm_skip.
  rewrite app_assoc. rewrite <-Permutation_middle. by rewrite <-app_assoc.
Qed.

Lemma StronglySorted_lex_NoDup (ps : list (nat * nat)) :
  StronglySorted lex_lt ps → NoDup ps.
Proof.
  induction 1 as [|k ps Hps IH Hk]; constructor; [|done].
  intros Hin. rewrite Forall_forall in Hk. by apply (lex_lt_irrefl k), Hk.
Qed.

Lemma length_visits_from a k n :
  a + k = n →
  2 * length (visits (seq a k) (λ i, range (i + 1) n)) = k * (k - 1).
Proof.
  revert a. induction k as [|k IH]; intros a Hn; [done|].
  unfold visits in *. cbn [seq]. rewrite bind_cons, length_app, length_fmap, length_range.
  specialize (IH (S a) ltac:(lia)). nia.
Qed.




(** X3. The two loops of [brute_force] visit every pair of positions
    [i < j < n] exactly once, in index order: [n (n - 1) / 2] evaluations of
    [dist] on [n] points. *)
Theorem brute_force_visits_all_pairs (l : list Point) (p0 : Point) :
  l !! 0 = Some p0 →
  brute_force l = Ok (scan l (PInf, (p0, p0)) (all_pairs (length l)))
  ∧ NoDup (all_pairs (length l))
  ∧ StronglySorted lex_lt (all_pairs (length l))
  ∧ (∀ i j, (i, j) ∈ all_pairs (length l) ↔ i < j < length l)
  ∧ 2 * length (all_pairs (length l)) = length l * (length l - 1).
Proof.
  intros H0. split_and!.
  - by apply brute_force_scan.
  - apply StronglySorted_lex_NoDup, StronglySorted_all_pairs.
  - apply StronglySorted_all_pairs.
  - intros i j. apply elem_of_all_pairs.
  - unfold all_pairs, range. rewrite Nat.sub_0_r. apply length_visits_from. lia.
Qed.

Lemma brute_force_visits_all_pairs_witness :
  example1 !! 0 = Some (mkPoint 0 0)
  ∧ 2 * length (all_pairs (length example1)) = 90.
Proof.
  assert (example1 !! 0 = Some (mkPoint 0 0)) as H0 by done.
  split; [done|].
  by destruct (brute_force_visits_all_pairs example1 _ H0) as (_ & _ & _ & _ & ->).
Defined.

(** ** Further properties of the recursion and of [closest_pair] *)

(** The pair returned by a call sits at two positions of any list that holds
    the points of both [px] and [py]. *)
Lemma rec_pair_two fuel px py (L : list Point) d a b :
  px ⊆+ L → py ⊆+ L → 2 ≤ length px →
  _closest_pair_rec fuel px py = Ok (d, (a, b)) →
  (∃ k, L ≡ₚ a :: b :: k) ∧ d = dist a b.
Proof.
  revert px py d a b.
  induction fuel as [|fuel IH]; intros px py d a b Hpx Hpy Hlen; [done|].
  assert (∀ (S : list Point) i j, S ⊆+ L → i < j < length S →
            ∃ k, L ≡ₚ S !!! i :: S !!! j :: k) as Htwo.
  { intros S i j HS Hij. destruct (lookup_two_Permutation S i j Hij) as [k Hk].
    rewrite Hk in HS. apply submseteq_Permutation in HS as [k' Hk'].
    exists (k ++ k'). by rewrite Hk'. }
  destruct (decide (length px ≤ 3)) as [Hn|Hn].
  { rewrite rec_base by done.
    destruct (brute_force_spec px Hlen) as (i & j & Hij & -> & _). intros [= <- <- <-].
    split; [by apply Htwo | done]. }
  assert (3 < length px) as Hn' by lia.
  pose proof (half_bounds _ Hn') as [H1 H2].
  intros (q & [dl [al bl]] & [dr [ar br]] & Hq & Hl & Hr & Hres)%rec_step_inv; [|done].
  apply IH in Hl as [Hl Hdl]; [| | |rewrite length_Qx; lia].
  2:{ etrans; [|exact Hpx]. apply sublist_submseteq, sublist_take. }
  2:{ etrans; [|exact Hpy]. apply sublist_submseteq, Qy_sublist. }
  apply IH in Hr as [Hr Hdr]; [| | |rewrite length_Rx; lia].
  2:{ etrans; [|exact Hpx]. apply sublist_submseteq, sublist_drop. }
  2:{ etrans; [|exact Hpy]. apply sublist_submseteq, Ry_sublist. }
  match type of Hres with _ = strip_scan ?S ?best =>
    destruct (strip_scan_cases S best) as [Heq | (i & j & [Hij _] & Heq & _)];
    rewrite Heq in Hres; clear Heq;
    [|assert (S ⊆+ L) as HS
        by (etrans; [apply sublist_submseteq, strip_sublist | exact Hpy])]
  end.
  - destruct (combine_cases (dl, (al, bl)) (dr, (ar, br))) as [Hc | Hc];
      rewrite Hc in Hres; by injection Hres as -> -> ->.
  - injection Hres as -> -> ->. split; [by apply Htwo | done].
Qed.

Lemma closest_pair_Ok_length points res :
  closest_pair points = Ok res → 2 ≤ length points.
Proof.
  intros Hcp. destruct (decide (length points < 2)) as [Hlt|]; [|lia].
  by rewrite closest_pair_short in Hcp.
Qed.



Lemma closest_pair_zero_iff (points : list Point) d pr :
  closest_pair points = Ok (d, pr) →
  (d = Sqrt 0 ↔ ¬ NoDup points) ∧ (NoDup points ↔ Dist.lt (Sqrt 0) d).
Proof.
  intros Hcp. pose proof (closest_pair_Ok_length _ _ Hcp) as Hlen.
  pose proof (closest_pair_min_pairwise _ _ _ Hlen Hcp) as Hmin.
  pose proof Hmin as [Hfar Hatt]%min_pairwise_alt.
  assert (Dist.le (Sqrt 0) d) as Hnonneg.
  { destruct Hatt as (p & q & k & _ & ->). apply dist_nonneg. }
  assert (NoDup points ↔ Dist.lt (Sqrt 0) d) as Hiff.
  { split; [|intros Hpos; by eapply far_apart_NoDup].
    intros Hnd. apply not_le_lt. intros Hle.
    eapply (min_pairwise_NoDup_pos points d); [done..|].
    by apply le_antisym. }
  split; [|done]. rewrite Hiff. split.
  - intros ->. apply le_not_lt, le_refl.
  - intros Hnlt. apply le_antisym; [by apply not_lt_le | done].
Qed.

(** X5. The distance [closest_pair] returns is 0 exactly when some point
    occurs twice in the input, and positive when the points are pairwise
    different. *)
Theorem closest_pair_zero_iff_repeated (points : list Point) d pr :
  closest_pair points = Ok (d, pr) →
  (d = Sqrt 0 ↔ ¬ NoDup points) ∧ (NoDup points ↔ Dist.lt (Sqrt 0) d).
Proof. apply closest_pair_zero_iff. Qed.

Lemma closest_pair_zero_iff_repeated_witness :
  closest_pair collinear8 = Ok (Sqrt 0, (mkPoint 0 30, mkPoint 0 30))
  ∧ ¬ NoDup collinear8.
Proof.
  assert (closest_pair collinear8 = Ok (Sqrt 0, (mkPoint 0 30, mkPoint 0 30))) as Hcp
    by (by vm_compute).
  split; [done|].
  by apply (closest_pair_zero_iff_repeated _ _ _ Hcp).
Defined.

Lemma min_pairwise_fmap (f : Point → Point) l d :
  (∀ p q, dist (f p) (f q) = dist p q) →
  min_pairwise (f <$> l) d ↔ min_pairwise l d.
Proof.
  intros Hf. unfold min_pairwise. rewrite length_fmap.
  assert (∀ i j, i < j < length l →
    dist ((f <$> l) !!! i) ((f <$> l) !!! j) = dist (l !!! i) (l !!! j)) as Heq.
  { intros i j Hij.
    rewrite (list_lookup_total_fmap f l i), (list_lookup_total_fmap f l j) by lia.
    apply Hf. }
  split; intros [Hfar (i & j & Hij & Hd)]; (split; [|exists i, j; split; [done|]]).
  - intros i' j' Hij'. rewrite <-Heq by done. auto.
  - by rewrite <-Heq.
  - intros i' j' Hij'. rewrite Heq by done. auto.
  - by rewrite Heq.
Qed.

(** X6. The distance [closest_pair] returns depends on the multiset of input
    points only (any reordering of the input gives the same distance), it is
    unchanged when the same distance-preserving map (a translation, a swap of
    the two coordinates) is applied to every point, and it does not grow when
    points are added. *)
Theorem closest_pair_distance_invariance (points points' : list Point) :
  2 ≤ length points →
  ∃ d pr, closest_pair points = Ok (d, pr)
    ∧ (points ≡ₚ points' → ∃ pr', closest_pair points' = Ok (d, pr'))
    ∧ (∀ f : Point → Point, (∀ p q, dist (f p) (f q) = dist p q) →
         ∃ pr', closest_pair (f <$> points) = Ok (d, pr'))
    ∧ (points ⊆+ points' →
         ∃ d' pr', closest_pair points' = Ok (d', pr') ∧ Dist.le d' d).
Proof.
  intros Hlen. destruct (closest_pair_total points Hlen) as [[d pr] Hcp].
  pose proof (closest_pair_min_pairwise _ _ _ Hlen Hcp) as Hmin.
  exists d, pr. split; [done|]. split_and!.
  - intros Hperm. assert (2 ≤ length points') as Hlen' by (by rewrite <-Hperm).
    destruct (closest_pair_total points' Hlen') as [[d' pr'] Hcp'].
    pose proof (closest_pair_min_pairwise _ _ _ Hlen' Hcp') as Hmin'.
    rewrite <-Hperm in Hmin'. exists pr'.
    by rewrite (min_pairwise_unique _ _ _ Hmin Hmin').
  - intros f Hf. assert (2 ≤ length (f <$> points)) as Hlen' by (by rewrite length_fmap).
    destruct (closest_pair_total _ Hlen') as [[d' pr'] Hcp'].
    pose proof (closest_pair_min_pairwise _ _ _ Hlen' Hcp') as Hmin'.
    apply min_pairwise_fmap in Hmin'; [|done]. exists pr'.
    by rewrite (min_pairwise_unique _ _ _ Hmin Hmin').
  - intros Hsub. pose proof (submseteq_length _ _ Hsub) as Hle.
    assert (2 ≤ length points') as Hlen' by lia.
    destruct (closest_pair_total points' Hlen') as [[d' pr'] Hcp'].
    pose proof (closest_pair_min_pairwise _ _ _ Hlen' Hcp') as Hmin'.
    exists d', pr'. split; [done|].
    apply min_pairwise_alt in Hmin as [_ Hatt], Hmin' as [Hfar' _].
    eapply attained_far_apart_le; [exact Hfar'|]. by eapply attained_submseteq.
Qed.

Lemma closest_pair_distance_invariance_witness :
  2 ≤ length example1
  ∧ ∃ d pr, closest_pair example1 = Ok (d, pr)
      ∧ (∃ pr', closest_pair (reverse example1) = Ok (d, pr'))
      ∧ (∃ pr', closest_pair ((λ p, mkPoint (y p + 7) (x p - 3)) <$> example1)
                = Ok (d, pr'))
      ∧ ∃ d' pr', closest_pair (mkPoint 0 1 :: example1) = Ok (d', pr')
                  ∧ Dist.le d' d.
Proof.
  assert (2 ≤ length example1) as Hlen by (simpl; lia).
  split; [done|].
  destruct (closest_pair_distance_invariance example1 (reverse example1) Hlen)
    as (d & pr & Hcp & Hperm & Hiso & _).
  destruct (closest_pair_distance_invariance example1 (mkPoint 0 1 :: example1) Hlen)
    as (d2 & pr2 & Hcp2 & _ & _ & Hmono).
  rewrite Hcp in Hcp2. injection Hcp2 as <- <-.
  exists d, pr. split; [done|]. split; [|split].
  - apply Hperm. by rewrite reverse_Permutation.
  - apply Hiso. intros p q. rewrite !dist_sqrt. cbn [x y]. f_equal. ring.
  - apply Hmono. apply submseteq_cons, reflexivity.
Defined.



(** X8. The window of seven successors loses nothing: in a call on more than
    three points whose [px] is sorted by (x, y) and whose [py] is sorted by
    (y, x) and holds the same points, the scan of the strip returns the same
    distance as the comparison of every pair of strip points would. *)
Theorem strip_window_complete fuel (px py : list Point) res :
  StronglySorted le_xy px → StronglySorted le_yx py → py ≡ₚ px →
  3 < length px → _closest_pair_rec (S fuel) px py = Ok res →
  ∃ q l r, last (Qx_of px) = Some q
    ∧ _closest_pair_rec fuel (Qx_of px) (Qy_of px py) = Ok l
    ∧ _closest_pair_rec fuel (Rx_of px) (Ry_of px py) = Ok r
    ∧ let best := combine l r in
      let strip := strip_of py (x q) best.1 in
      res = scan strip best (window_pairs (length strip))
      ∧ res.1 = (scan strip best (all_pairs (length strip))).1.
Proof.
  intros Hpx Hpy Hperm Hn Hrec.
  assert (min_pairwise px res.1) as [Hfar _]%min_pairwise_alt.
  { apply (rec_min_pairwise (S fuel) _ _ _ Hpx Hpy Hperm); [lia | done]. }
  apply rec_step_inv in Hrec as (q & l & r & Hq & Hl & Hr & ->); [|done].
  exists q, l, r. split_and!; [done..|]. cbv zeta.
  set (best := combine l r) in *. set (S := strip_of py (x q) best.1) in *.
  split; [apply strip_scan_scan|].
  pose proof (half_bounds _ Hn) as [H1 H2].
  assert (py ⊆+ px) as Hpysub by (by rewrite Hperm).
  assert (S ⊆+ px) as HS.
  { etrans; [apply sublist_submseteq, strip_sublist | done]. }
  assert (attained l.1 px) as HlA.
  { destruct l as [d [a b]].
    apply (rec_pair_two _ _ _ px) in Hl as [[k Hk] ->]; [by exists a, b, k|..].
    - apply sublist_submseteq, sublist_take.
    - etrans; [apply sublist_submseteq, Qy_sublist | done].
    - rewrite length_Qx. lia. }
  assert (attained r.1 px) as HrA.
  { destruct r as [d [a b]].
    apply (rec_pair_two _ _ _ px) in Hr as [[k Hk] ->]; [by exists a, b, k|..].
    - apply sublist_submseteq, sublist_drop.
    - etrans; [apply sublist_submseteq, Ry_sublist | done].
    - rewrite length_Rx. lia. }
  assert (attained best.1 px) as Hbest.
  { unfold best. by destruct (combine_cases l r) as [-> | ->]. }
  apply le_antisym.
  - eapply attained_far_apart_le; [exact Hfar|].
    destruct (scan_start_or_visited S best (all_pairs (length S)))
      as [-> | ([i j] & Hk%elem_of_all_pairs & -> & _)]; [done|].
    apply (attained_submseteq _ S); [done|]. by apply attained_lookup.
  - destruct (strip_scan_cases S best) as [-> | (i & j & [Hij _] & -> & _)].
    + apply scan_le_start.
    + apply (scan_le_visited S best _ (i, j)). by apply elem_of_all_pairs.
Qed.

Lemma strip_window_complete_witness :
  (StronglySorted le_xy diagonal5 ∧ StronglySorted le_yx diagonal5
   ∧ diagonal5 ≡ₚ diagonal5 ∧ 3 < length diagonal5
   ∧ _closest_pair_rec 3 diagonal5 diagonal5
     = Ok (Sqrt 2, (mkPoint 0 0, mkPoint 1 1)))
  ∧ ∃ q l r, last (Qx_of diagonal5) = Some q
      ∧ (Sqrt 2, (mkPoint 0 0, mkPoint 1 1)).1
        = (scan (strip_of diagonal5 (x q) (combine l r).1) (combine l r)
             (all_pairs (length (strip_of diagonal5 (x q) (combine l r).1)))).1.
Proof.
  assert (StronglySorted le_xy diagonal5) as Hx
    by (by apply (bool_decide_unpack _); vm_compute).
  assert (StronglySorted le_yx diagonal5) as Hy
    by (by apply (bool_decide_unpack _); vm_compute).
  assert (3 < length diagonal5) as Hn by (simpl; lia).
  assert (_closest_pair_rec 3 diagonal5 diagonal5
          = Ok (Sqrt 2, (mkPoint 0 0, mkPoint 1 1))) as Hrec by (by vm_compute).
  split; [done|].
  destruct (strip_window_complete 2 diagonal5 diagonal5 _ Hx Hy (reflexivity _) Hn Hrec)
    as (q & l & r & Hq & _ & _ & _ & Hall).
  by exists q, l, r.
Defined.

(** ** Parsing a point *)

Lemma split_on_cons sep s : ∃ part parts, split_on sep s = part :: parts.
Proof.
  destruct s as [|c s]; simpl; [eauto|].
  case_decide; [eauto|]. destruct (split_on sep s); eauto.
Qed.

Lemma length_split_on sep s : length (split_on sep s) = count_char sep s + 1.
Proof.
  induction s as [|c s IH]; simpl; [done|].
  case_decide; simpl; [by rewrite IH|].
  destruct (split_on_cons sep s) as (part & parts & Hs). by rewrite Hs in *.
Qed.

Lemma split_on_sep_free sep s : count_char sep s = 0 → split_on sep s = [s].
Proof.
  induction s as [|c s IH]; simpl; [done|].
  case_decide; [done|]. intros Hs. by rewrite IH.
Qed.

Lemma split_on_app sep a b :
  count_char sep a = 0 →
  split_on sep (a +:+ String sep b) = a :: split_on sep b.
Proof.
  induction a as [|c a IH]; simpl.
  - intros _. by rewrite decide_True.
  - case_decide; [done|]. intros Ha. by rewrite IH.
Qed.

Lemma split_on_two_inv sep s a b :
  split_on sep s = [a; b] →
  s = a +:+ String sep b ∧ count_char sep a = 0 ∧ count_char sep b = 0.
Proof.
  revert a. induction s as [|c s IH]; intros a; simpl; [done|].
  case_decide as Hc.
  - intros [= <- Hs]. subst c.
    assert (count_char sep s = 0) as Hs0.
    { pose proof (length_split_on sep s) as Hlen. rewrite Hs in Hlen. simpl in Hlen. lia. }
    rewrite split_on_sep_free in Hs by done. injection Hs as ->. done.
  - destruct (split_on sep s) as [|part parts] eqn:Hs; [done|].
    intros [= <- ->]. destruct (IH part eq_refl) as (-> & Ha & Hb).
    split_and!; [done | | done]. simpl. by rewrite decide_False.
Qed.

(** X9. [Point.from_str] raises [ValueError] on every text that does not
    hold exactly one comma, whatever [float] does.  On a text [a,b] with one
    comma it is [float] applied to [a], then to [b]: it returns the point of
    the two values, or fails as the first failing [float] does.  So a point
    it returns comes from a text with exactly one comma, whose two sides
    [float] reads as the point's coordinates. *)
Theorem from_str_spec (float : string → res Z) (s : string) :
  (count_char "," s ≠ 1 → from_str float s = Raise ValueError)
  ∧ (∀ a b, s = a +:+ "," +:+ b → count_char "," a = 0 → count_char "," b = 0 →
       from_str float s = (fx ← float a; fy ← float b; Ok (mkPoint fx fy)))
  ∧ (∀ p, from_str float s = Ok p →
       ∃ a b, s = a +:+ "," +:+ b ∧ count_char "," a = 0 ∧ count_char "," b = 0
              ∧ float a = Ok (x p) ∧ float b = Ok (y p)).
Proof.
  split_and!.
  - intros Hc. unfold from_str. rewrite decide_True; [done|].
    rewrite length_split_on. lia.
  - intros a b -> Ha Hb. unfold from_str.
    change ("," +:+ b) with (String "," b).
    rewrite split_on_app, (split_on_sep_free _ b) by done.
    rewrite decide_False by (simpl; lia). done.
  - intros p. unfold from_str. case_decide as Hlen; [done|].
    destruct (split_on "," s) as [|a [|b [|??]]] eqn:Hs; simpl in Hlen; try lia.
    apply split_on_two_inv in Hs as (-> & Ha & Hb).
    unfold index. simpl. destruct (float a) as [fx|] eqn:Hfx; [|done]. simpl.
    destruct (float b) as [fy|] eqn:Hfy; [|done]. simpl. intros [= <-].
    by exists a, b.
Qed.

Lemma from_str_spec_witness :
  (count_char "," "3,4,5" ≠ 1 ∧ from_str digit_float "3,4,5" = Raise ValueError)
  ∧ (count_char "," "3" = 0 ∧ count_char "," "4" = 0
     ∧ from_str digit_float "3,4" = Ok (mkPoint 3 4)).
Proof.
  split.
  - assert (count_char "," "3,4,5" ≠ 1) as Hc by (vm_compute; lia).
    split; [done|]. by apply (from_str_spec digit_float "3,4,5").
  - assert (count_char "," "3" = 0) as Ha by done.
    assert (count_char "," "4" = 0) as Hb by done.
    split_and!; [done..|].
    destruct (from_str_spec digit_float "3,4") as (_ & Hok & _).
    by rewrite (Hok "3" "4" eq_refl Ha Hb).
Defined.

(** ** Random points *)

#[local] Open Scope Z_scope.

Lemma elem_of_grid p : p ∈ grid ↔ in_range p.
Proof.
  unfold grid, in_range. rewrite list_elem_of_bind. split.
  - intros (vx & (vy & ->%list_elem_of_singleton & Hy%elem_of_seqZ)%list_elem_of_bind
              & Hx%elem_of_seqZ). simpl. lia.
  - intros [Hx Hy]. exists (x p). rewrite elem_of_seqZ. split; [|lia].
    apply list_elem_of_bind. exists (y p). rewrite elem_of_seqZ. split; [|lia].
    destruct p. apply list_elem_of_singleton. done.
Qed.

Lemma length_grid : Z.of_nat (length grid) = 10201.
Proof. by vm_compute. Qed.

Lemma in_range_NoDup_length (pts : list Point) :
  Forall in_range pts → NoDup pts → Z.of_nat (length pts) ≤ 10201.
Proof.
  intros Hrange Hnd. rewrite <-length_grid. apply inj_le, submseteq_length.
  apply NoDup_submseteq; [done|]. intros p Hp. apply elem_of_grid.
  by eapply Forall_forall in Hrange.
Qed.

Lemma in_range_dist p q :
  in_range p → in_range q → Dist.le (dist p q) (Sqrt 20000).
Proof.
  intros [Hpx Hpy] [Hqx Hqy]. rewrite dist_sqrt. cbn [Dist.le].
  assert (∀ a b, -50 ≤ a ≤ 50 → -50 ≤ b ≤ 50 → (a - b) * (a - b) ≤ 10000) as Hsq.
  { intros a b Ha Hb. assert (-100 ≤ a - b ≤ 100) as Hd by lia.
    generalize dependent (a - b). intros c Hc. nia. }
  pose proof (Hsq _ _ Hpx Hqx). pose proof (Hsq _ _ Hpy Hqy). lia.
Qed.

Section random_points_facts.
Context {Rng : Type} (Random : Z → Rng) (randint : Rng → Z → Z → Z * Rng).
Hypothesis randint_range :
  ∀ g a b v g', a ≤ b → randint g a b = (v, g') → a ≤ v ≤ b.

Lemma random_points_loop_spec k rng pts :
  ∃ new, random_points_loop Rng randint k rng pts = pts ++ new
    ∧ length new = k ∧ Forall in_range new.
Proof.
  revert rng pts. induction k as [|k IH]; intros rng pts; cbn [random_points_loop].
  { exists []. by rewrite app_nil_r. }
  destruct (randint rng (-50) 50) as [vx rng1] eqn:Hx.
  destruct (randint rng1 (-50) 50) as [vy rng2] eqn:Hy.
  destruct (IH rng2 (pts ++ [mkPoint vx vy])) as (new & -> & Hlen & Hrange).
  exists (mkPoint vx vy :: new). rewrite <-app_assoc. split_and!; [done | simpl; lia |].
  constructor; [|done]. apply randint_range in Hx, Hy; [|lia..]. by split.
Qed.

Lemma random_points_range n seed :
  length (random_points Rng Random randint n seed) = Z.to_nat n
  ∧ Forall in_range (random_points Rng Random randint n seed).
Proof.
  unfold random_points.
  destruct (random_points_loop_spec (Z.to_nat n) (Random seed) [])
    as (new & -> & Hlen & Hrange). done.
Qed.
End random_points_facts.

(** X10. For a generator whose [randint(a, b)] stays within [a .. b],
    [random_points(n, seed)] is a list of [n] points (none when [n <= 0])
    with both coordinates in [-50 .. 50].  Hence [closest_pair] raises
    [ValueError] on it exactly when [n < 2]; for [n >= 2] the distance it
    returns is at most √20000, and it is 0 as soon as [n > 10201], there
    being only 101 × 101 such points. *)
Theorem random_points_closest_pair {Rng : Type} (Random : Z → Rng)
    (randint : Rng → Z → Z → Z * Rng) (n seed : Z) :
  (∀ g a b v g', a ≤ b → randint g a b = (v, g') → a ≤ v ≤ b) →
  let pts := random_points Rng Random randint n seed in
  length pts = Z.to_nat n
  ∧ Forall (λ p, (-50 ≤ x p ≤ 50) ∧ (-50 ≤ y p ≤ 50)) pts
  ∧ (closest_pair pts = Raise ValueError ↔ n < 2)
  ∧ (2 ≤ n → ∃ d pr, closest_pair pts = Ok (d, pr) ∧ Dist.le d (Sqrt 20000)
               ∧ (10201 < n → d = Sqrt 0)).
Proof.
  intros Hrand pts.
  destruct (random_points_range Random randint Hrand n seed) as [Hlen Hrange].
  fold pts in Hlen, Hrange. split_and!; [done | done | |].
  - split.
    + intros Herr. destruct (decide (n < 2)) as [|Hge]; [done|].
      destruct (closest_pair_total pts) as [res Hres]; [lia | congruence].
    + intros Hn. apply closest_pair_short. lia.
  - intros Hn. destruct (closest_pair_total pts) as [[d pr] Hcp]; [lia|].
    exists d, pr. split_and!; [done | |].
    + apply closest_pair_min_pairwise in Hcp as [_ (i & j & Hij & ->)]; [|lia].
      rewrite Forall_forall in Hrange.
      apply in_range_dist; apply Hrange, list_elem_of_lookup_total_2; lia.
    + intros Hbig. apply (closest_pair_zero_iff pts d pr Hcp).
      intros Hnd. pose proof (in_range_NoDup_length pts Hrange Hnd). lia.
Qed.

Lemma counter_randint_range (g a b v g' : Z) :
  a ≤ b → counter_randint g a b = (v, g') → a ≤ v ≤ b.
Proof.
  intros Hab [= <- _]. pose proof (Z.mod_pos_bound g (b - a + 1)). lia.
Qed.

Lemma random_points_closest_pair_witness :
  (∀ g a b v g', a ≤ b → counter_randint g a b = (v, g') → a ≤ v ≤ b)
  ∧ random_points Z counter_Random counter_randint 3 42
    = [mkPoint (-8) (-7); mkPoint (-6) (-5); mkPoint (-4) (-3)]
  ∧ (closest_pair (random_points Z counter_Random counter_randint 1 42) = Raise ValueError
     ↔ 1 < 2)
  ∧ ∃ d pr, closest_pair (random_points Z counter_Random counter_randint 3 42) = Ok (d, pr)
            ∧ Dist.le d (Sqrt 20000).
Proof.
  split; [exact counter_randint_range|]. split; [by vm_compute|].
  destruct (random_points_closest_pair counter_Random counter_randint 1 42 counter_randint_range)
    as (_ & _ & Herr & _).
  destruct (random_points_closest_pair counter_Random counter_randint 3 42 counter_randint_range)
    as (_ & _ & _ & Hok).
  split; [done|]. destruct Hok as (d & pr & Hcp & Hle & _); [lia|]. by exists d, pr.
Defined.
